(** * torchsde: the diagonal-noise SRK solver (strong order 1.5)

    A shallow embedding of [torchsde/core/methods/diagonal/srk.py]
    (class [SRKDiagonal]) and the properties of its single-step update.

    Values.  Tensors and Python scalars are values of one carrier [T] with
    the arithmetic of a numeric backend ([Numeric]); a block of the state is
    one such value, and a state is a tuple (list) of blocks.  The operations
    are those the source applies, with the source's precedence and
    association; the move to another dtype and device, [to], is an operation
    of the backend like the others.  Theorems that hold by the shape of the
    computation alone are proved for every backend; those that need algebra
    (reassociating a sum, absorbing a zero) assume the laws of [AddLaws] and
    [ZeroLaws], which ideal real arithmetic and exact integer arithmetic
    both satisfy.

    Effects.  [step] runs in a state-and-exception monad over a [world]
    that records the position of the global random generator and the calls
    made to the collaborators (Brownian path, trapezoidal helper, generator,
    drift, diffusion), in order. *)

From Stdlib Require Import ZArith QArith Reals Lra Lia.
From stdpp Require Import base list gmap strings.

(** ** The numeric backend *)

Class Numeric (T : Type) := {
  add : T → T → T;
  sub : T → T → T;
  mul : T → T → T;
  div : T → T → T;
  pow : T → nat → T;    (* [x ** 2.], [x ** 3.]: the exponents are literals *)
  sqrt : T → T;         (* [math.sqrt] / [torch.sqrt] *)
  to : T → T → T;       (* [x.to(ref)]: [x] in the dtype and on the device of [ref] *)
  lit : Z → T;          (* the numeric literals [0], [2.], [3.], [6.] *)
  gt : T → T → bool;    (* the comparison [x > y] *)
}.

Declare Scope num_scope.
Delimit Scope num_scope with num.
Notation "x ⊕ y" := (add x y) (at level 50, left associativity) : num_scope.
Notation "x ⊖ y" := (sub x y) (at level 50, left associativity) : num_scope.
Notation "x ⊗ y" := (mul x y) (at level 40, left associativity) : num_scope.
Notation "x ⊘ y" := (div x y) (at level 40, left associativity) : num_scope.
Notation "x ^^ n" := (pow x n) (at level 30, right associativity) : num_scope.
Notation "# z" := (lit z) (at level 9, z at level 9, format "# z") : num_scope.
Local Open Scope num_scope.

(** The laws some of the theorems use.  The comparison is a strict order;
    sums may be reassociated and [0] added; a zero factor or numerator gives
    zero. *)
Class GtLaws (T : Type) `{Numeric T} : Prop := {
  gt_irrefl' : ∀ x : T, gt x x = false;
  gt_asym' : ∀ x y : T, gt x y = true → gt y x = false;
}.

Class AddLaws (T : Type) `{Numeric T} : Prop := {
  add_assoc' : ∀ x y z : T, x ⊕ (y ⊕ z) = x ⊕ y ⊕ z;
  add_0_r' : ∀ x : T, x ⊕ #0 = x;
}.

Class ZeroLaws (T : Type) `{Numeric T} : Prop := {
  mul_0_l' : ∀ x : T, #0 ⊗ x = #0;
  mul_0_r' : ∀ x : T, x ⊗ #0 = #0;
  div_0_l' : ∀ x : T, #0 ⊘ x = #0;
}.

(** Exact integer arithmetic: a backend on which every definition runs.  It
    has one dtype and one device: [to] keeps its argument. *)
#[export] Instance Z_numeric : Numeric Z := {|
  add := Z.add; sub := Z.sub; mul := Z.mul; div := Z.div;
  pow := λ x n, Z.pow x (Z.of_nat n);
  sqrt := Z.sqrt; to := λ x _, x; lit := λ z, z; gt := Z.gtb;
|}.

(** Ideal real arithmetic, with one dtype and one device too. *)
Definition Rgtb (x y : R) : bool := if Rlt_dec y x then true else false.

#[export] Instance R_numeric : Numeric R := {|
  add := Rplus; sub := Rminus; mul := Rmult; div := Rdiv;
  pow := Rpow_def.pow; sqrt := R_sqrt.sqrt; to := λ x _, x; lit := IZR;
  gt := Rgtb;
|}.

(** ** Exceptions, results and tuples *)

Inductive exn := AssertionError | IndexError.

Inductive result (A : Type) :=
  | Ok (a : A)
  | Raise (e : exn).
Arguments Ok {A} a.
Arguments Raise {A} e.

(** [zip] of three and of four tuples under a generator expression: the
    result stops with the shortest argument. *)
Fixpoint zip3_with {A B C D} (h : A → B → C → D)
    (l1 : list A) (l2 : list B) (l3 : list C) : list D :=
  match l1, l2, l3 with
  | a :: l1, b :: l2, c :: l3 => h a b c :: zip3_with h l1 l2 l3
  | _, _, _ => []
  end.

Fixpoint zip4_with {A B C D E} (h : A → B → C → D → E)
    (l1 : list A) (l2 : list B) (l3 : list C) (l4 : list D) : list E :=
  match l1, l2, l3, l4 with
  | a :: l1, b :: l2, c :: l3, d :: l4 => h a b c d :: zip4_with h l1 l2 l3 l4
  | _, _, _, _ => []
  end.

(** ** Configuration values *)

(** The values an options mapping holds, with Python's truth test. *)
Inductive pyval :=
  | PyNone
  | PyBool (b : bool)
  | PyInt (z : Z)
  | PyStr (s : string).

Definition truthy (v : pyval) : bool :=
  match v with
  | PyNone => false
  | PyBool b => b
  | PyInt z => negb (z =? 0)%Z
  | PyStr s => match s with EmptyString => false | _ => true end
  end.

(** ** The names the module imports

    The tableau module [torchsde.core.methods.tableaus.srid2] is not part of
    the sources at hand: its constants are parameters.  [step] reads [C0],
    [C1], [alpha], [beta1..4] at stages [s < STAGES] and the matrices at
    [s < STAGES], [j < s] only. *)
Class Tableau (T : Type) := {
  STAGES : nat;
  C0 : nat → T;
  C1 : nat → T;
  A0 : nat → nat → T;
  A1 : nat → nat → T;
  B0 : nat → nat → T;
  B1 : nat → nat → T;
  alpha : nat → T;
  beta1 : nat → T;
  beta2 : nat → T;
  beta3 : nat → T;
  beta4 : nat → T;
}.

(** [utils.compute_trapezoidal_approx(bm, t0, y0, dt, sqrt_dt)] is outside
    the sources at hand too: a parameter, a function of the Brownian path
    and of its other arguments.  [randn k] is the [k]-th standard-normal
    draw of the global random generator behind [torch.randn_like]. *)
Class Externals (T : Type) := {
  compute_trapezoidal_approx : (T → list T) → T → list T → T → T → list T;
  randn : nat → T;
}.

Section Program.
Context {T : Type} {num : Numeric T} {tab : Tableau T} {ext : Externals T}.

(** ** The world: random generator and collaborator calls *)

Inductive event :=
  | CallBm (t : T)
  | CallTrapezoidal (t0 : T) (y0 : list T) (dt sqrt_dt : T)
  | CallRandn
  | CallF (t : T) (y : list T)
  | CallG (t : T) (y : list T).

Record world := { rng_pos : nat; calls : list event }.

Definition log (es : list event) (w : world) : world :=
  {| rng_pos := rng_pos w; calls := calls w ++ es |}.

Definition M (A : Type) : Type := world → result A * world.

Definition ret {A} (a : A) : M A := λ w, (Ok a, w).

Definition raise {A} (e : exn) : M A := λ w, (Raise e, w).

Definition bind {A B} (m : M A) (k : A → M B) : M B :=
  λ w, match m w with
       | (Ok a, w') => k a w'
       | (Raise e, w') => (Raise e, w')
       end.

Notation "'do' x <~ m ; k" := (bind m (λ x, k))
  (at level 10, x name, m at level 100, k at level 200, only parsing).
Notation "'do' ' p <~ m ; k" := (bind m (λ x, match x with p => k end))
  (at level 10, p pattern, m at level 100, k at level 200, only parsing).

(** [assert c] *)
Definition py_assert (c : bool) : M unit :=
  if c then ret tt else raise AssertionError.

(** [l[i]] *)
Definition index {A} (l : list A) (i : nat) : M A :=
  match l !! i with
  | Some a => ret a
  | None => raise IndexError
  end.

(** [tuple(body(x) for x in l)] *)
Fixpoint mapM {A B} (body : A → M B) (l : list A) : M (list B) :=
  match l with
  | [] => ret []
  | x :: l => do b <~ body x; do bs <~ mapM body l; ret (b :: bs)
  end.

(** [for x in l: a = body(a, x)] *)
Fixpoint foldM {A B} (body : A → B → M A) (l : list B) (a : A) : M A :=
  match l with
  | [] => ret a
  | x :: l => do a' <~ body a x; foldM body l a'
  end.

(** ** The SDE and the solver object *)

(** Drift and diffusion: deterministic functions of time and state. *)
Record SDE := {
  f : T → list T → list T;
  g : T → list T → list T;
}.

(** The base class [base_solver.GenericSDESolver] is not part of the
    sources at hand.  Of its fields this class reads [sde], [bm] and
    [options]; [bm] is one sampled Brownian path, a function of time. *)
Record GenericSDESolver := {
  sde : SDE;
  bm : T → list T;
  options : gmap string pyval;
}.

(** Modelled from the spec: the constructor of the base class keeps the
    SDE, the Brownian collaborator and the configuration mapping it is
    given; its other arguments ([y0], [dt], [adaptive], [rtol], [atol],
    [dt_min]) are the driver's and are not read here. *)
Definition GenericSDESolver_init (sde : SDE) (bm : T → list T)
    (options : gmap string pyval) : GenericSDESolver :=
  {| sde := sde; bm := bm; options := options |}.

(** [SRKDiagonal] adds one field to its base class. *)
Record SRKDiagonal := {
  base :> GenericSDESolver;
  trapezoidal_approx : bool;
}.

(** [SRKDiagonal.__init__] *)
Definition init (sde' : SDE) (bm' : T → list T) (options' : gmap string pyval)
    : SRKDiagonal :=
  let self := GenericSDESolver_init sde' bm' options' in
  {| base := self;
     trapezoidal_approx :=
       match options self !! "trapezoidal_approx" with
       | Some v => if negb (truthy v) then false else true
       | None => true
       end |}.

(** ** Calls to the collaborators *)

Definition call_bm (self : SRKDiagonal) (t : T) : M (list T) :=
  λ w, (Ok (bm self t), log [CallBm t] w).

Definition call_f (self : SRKDiagonal) (t : T) (y : list T) : M (list T) :=
  λ w, (Ok (f (sde self) t y), log [CallF t y] w).

Definition call_g (self : SRKDiagonal) (t : T) (y : list T) : M (list T) :=
  λ w, (Ok (g (sde self) t y), log [CallG t y] w).

Definition call_trapezoidal (self : SRKDiagonal) (t0 : T) (y0 : list T)
    (dt sqrt_dt : T) : M (list T) :=
  λ w, (Ok (compute_trapezoidal_approx (bm self) t0 y0 dt sqrt_dt),
        log [CallTrapezoidal t0 y0 dt sqrt_dt] w).

(** [torch.randn_like(x)]: the next draw of the global generator. *)
Definition randn_like (x : T) : M T :=
  λ w, (Ok (randn (rng_pos w)),
        {| rng_pos := S (rng_pos w); calls := calls w ++ [CallRandn] |}).


(** ** [SRKDiagonal.step] *)

(** The local variables of [step] when it returns. *)
Record locals := {
  sqrt_dt : T;
  I_k : list T;
  I_kk : list T;
  I_k0 : list T;
  I_kkk : list T;
  H0 : list (list T);
  H1 : list (list T);
  t1 : T;
  y1 : list T;
}.

(** Lines 57-64: the Brownian increment and the integrals derived from it. *)
Definition integrals (self : SRKDiagonal) (t0 : T) (y0 : list T) (dt : T)
    : M (T * list T * list T * list T * list T) :=
  let sqrt_dt := sqrt dt in
  do bm_next <~ call_bm self (t0 ⊕ dt);
  do bm_cur <~ call_bm self t0;
  do I_k <~ mapM (λ '(bm_next, bm_cur),
                   do ref <~ index y0 0; ret (to (bm_next ⊖ bm_cur) ref))
                 (zip bm_next bm_cur);
  let I_kk := map (λ delta_bm_, (delta_bm_ ^^ 2 ⊖ dt) ⊘ #2) I_k in
  do I_k0 <~
    (if trapezoidal_approx self
     then call_trapezoidal self t0 y0 dt sqrt_dt
     else mapM (λ delta_bm_,
                 do z <~ randn_like delta_bm_;
                 ret (dt ⊘ #2 ⊗ (delta_bm_ ⊕ z ⊗ sqrt_dt ⊘ sqrt #3)))
               I_k);
  let I_kkk := map (λ delta_bm_, (delta_bm_ ^^ 3 ⊖ #3 ⊗ dt ⊗ delta_bm_) ⊘ #6) I_k in
  ret (sqrt_dt, I_k, I_kk, I_k0, I_kkk).

(** Lines 70-81: one pass of the inner loop, for stage [s] and earlier
    stage [j]. *)
Definition inner (self : SRKDiagonal) (t0 dt sqrt_dt : T) (I_k0 : list T)
    (H0 H1 : list (list T)) (s : nat)
    (acc : list T * list T) (j : nat) : M (list T * list T) :=
  let '(H0s, H1s) := acc in
  do H0j <~ index H0 j;
  do f_eval <~ call_f self (t0 ⊕ C0 j ⊗ dt) H0j;
  do H1j <~ index H1 j;
  do g_eval <~ call_g self (t0 ⊕ C1 j ⊗ dt) H1j;
  let H0s := zip4_with (λ H0s_ f_eval_ g_eval_ I_k0_,
                 H0s_ ⊕ A0 s j ⊗ f_eval_ ⊗ dt ⊕ B0 s j ⊗ g_eval_ ⊗ I_k0_ ⊘ dt)
               H0s f_eval g_eval I_k0 in
  let H1s := zip3_with (λ H1s_ f_eval_ g_eval_,
                 H1s_ ⊕ A1 s j ⊗ f_eval_ ⊗ dt ⊕ B1 s j ⊗ g_eval_ ⊗ sqrt_dt)
               H1s f_eval g_eval in
  ret (H0s, H1s).

(** Line 91: the weight of the diffusion term at stage [s]. *)
Definition g_weight (dt sqrt_dt : T) (I_k I_kk I_k0 I_kkk : list T) (s : nat)
    : list T :=
  zip4_with (λ I_k_ I_kk_ I_k0_ I_kkk_,
      beta1 s ⊗ I_k_ ⊕ beta2 s ⊗ I_kk_ ⊘ sqrt_dt
      ⊕ beta3 s ⊗ I_k0_ ⊘ dt ⊕ beta4 s ⊗ I_kkk_ ⊘ dt)
    I_k I_kk I_k0 I_kkk.

(** Lines 69-97: one pass of the outer loop, for stage [s], on the loop
    variables [(y1, H0, H1)]. *)
Definition stage (self : SRKDiagonal) (t0 : T) (y0 : list T) (dt sqrt_dt : T)
    (I_k I_kk I_k0 I_kkk : list T)
    (st : list T * list (list T) * list (list T)) (s : nat)
    : M (list T * list (list T) * list (list T)) :=
  let '(y1, H0, H1) := st in
  do '(H0s, H1s) <~ foldM (inner self t0 dt sqrt_dt I_k0 H0 H1 s) (seq 0 s) (y0, y0);
  let H0 := H0 ++ [H0s] in
  let H1 := H1 ++ [H1s] in
  do f_eval <~ call_f self (t0 ⊕ C0 s ⊗ dt) H0s;
  do g_eval <~ call_g self (t0 ⊕ C1 s ⊗ dt) H1s;
  let g_weight := g_weight dt sqrt_dt I_k I_kk I_k0 I_kkk s in
  let y1 := zip4_with (λ y1_ f_eval_ g_eval_ g_weight_,
                y1_ ⊕ alpha s ⊗ f_eval_ ⊗ dt ⊕ g_weight_ ⊗ g_eval_)
              y1 f_eval g_eval g_weight in
  ret (y1, H0, H1).

(** [step] up to its [return], with all its local variables. *)
Definition step_locals (self : SRKDiagonal) (t0 : T) (y0 : list T) (dt : T)
    : M locals :=
  do _ <~ py_assert (gt dt #0);
  do '(sqrt_dt, I_k, I_kk, I_k0, I_kkk) <~ integrals self t0 y0 dt;
  let t1 := t0 ⊕ dt in
  do '(y1, H0, H1) <~
    foldM (stage self t0 y0 dt sqrt_dt I_k I_kk I_k0 I_kkk)
          (seq 0 STAGES) (y0, [], []);
  ret {| sqrt_dt := sqrt_dt; I_k := I_k; I_kk := I_kk; I_k0 := I_k0;
         I_kkk := I_kkk; H0 := H0; H1 := H1; t1 := t1; y1 := y1 |}.

Definition step (self : SRKDiagonal) (t0 : T) (y0 : list T) (dt : T)
    : M (T * list T) :=
  do l <~ step_locals self t0 y0 dt;
  ret (t1 l, y1 l).

(** [strong_order]: the literal [1.5]. *)
Definition strong_order (self : SRKDiagonal) : Q := 1.5%Q.


(** ** The pure content of [step]

    What the loops compute and which calls they make, as functions; the
    lemmas of the next part show that running [step] yields exactly these. *)

Definition I_k_pure (self : SRKDiagonal) (t0 : T) (y0 : list T) (dt : T)
    : list T :=
  zip_with (λ bm_next bm_cur, to (bm_next ⊖ bm_cur) (nth 0 y0 #0))
    (bm self (t0 ⊕ dt)) (bm self t0).

Definition gaussian_I_k0 (dt : T) (p : nat) (I_k : list T) : list T :=
  imap (λ i delta_bm_, dt ⊘ #2 ⊗ (delta_bm_ ⊕ randn (p + i) ⊗ sqrt dt ⊘ sqrt #3)) I_k.

Definition I_k0_pure (self : SRKDiagonal) (t0 : T) (y0 : list T) (dt : T)
    (p : nat) : list T :=
  if trapezoidal_approx self
  then compute_trapezoidal_approx (bm self) t0 y0 dt (sqrt dt)
  else gaussian_I_k0 dt p (I_k_pure self t0 y0 dt).

Definition I_k0_events (self : SRKDiagonal) (t0 : T) (y0 : list T) (dt : T)
    : list event :=
  if trapezoidal_approx self
  then [CallTrapezoidal t0 y0 dt (sqrt dt)]
  else replicate (length (I_k_pure self t0 y0 dt)) CallRandn.

Definition rng_after (self : SRKDiagonal) (t0 : T) (y0 : list T) (dt : T)
    (p : nat) : nat :=
  if trapezoidal_approx self then p else p + length (I_k_pure self t0 y0 dt).

Definition inner_pure (self : SRKDiagonal) (t0 dt sqrt_dt : T) (I_k0 : list T)
    (H0 H1 : list (list T)) (s : nat)
    (acc : list T * list T) (j : nat) : list T * list T :=
  let f_eval := f (sde self) (t0 ⊕ C0 j ⊗ dt) (nth j H0 []) in
  let g_eval := g (sde self) (t0 ⊕ C1 j ⊗ dt) (nth j H1 []) in
  (zip4_with (λ H0s_ f_eval_ g_eval_ I_k0_,
       H0s_ ⊕ A0 s j ⊗ f_eval_ ⊗ dt ⊕ B0 s j ⊗ g_eval_ ⊗ I_k0_ ⊘ dt)
     acc.1 f_eval g_eval I_k0,
   zip3_with (λ H1s_ f_eval_ g_eval_,
       H1s_ ⊕ A1 s j ⊗ f_eval_ ⊗ dt ⊕ B1 s j ⊗ g_eval_ ⊗ sqrt_dt)
     acc.2 f_eval g_eval).

Definition inner_events (self : SRKDiagonal) (t0 dt : T)
    (H0 H1 : list (list T)) (j : nat) : list event :=
  [CallF (t0 ⊕ C0 j ⊗ dt) (nth j H0 []);
   CallG (t0 ⊕ C1 j ⊗ dt) (nth j H1 [])].

Definition stage_values (self : SRKDiagonal) (t0 : T) (y0 : list T)
    (dt sqrt_dt : T) (I_k0 : list T) (H0 H1 : list (list T)) (s : nat)
    : list T * list T :=
  foldl (inner_pure self t0 dt sqrt_dt I_k0 H0 H1 s) (y0, y0) (seq 0 s).

Definition stage_pure (self : SRKDiagonal) (t0 : T) (y0 : list T)
    (dt sqrt_dt : T) (I_k I_kk I_k0 I_kkk : list T)
    (st : list T * list (list T) * list (list T)) (s : nat)
    : list T * list (list T) * list (list T) :=
  let Hs := stage_values self t0 y0 dt sqrt_dt I_k0 st.1.2 st.2 s in
  let f_eval := f (sde self) (t0 ⊕ C0 s ⊗ dt) Hs.1 in
  let g_eval := g (sde self) (t0 ⊕ C1 s ⊗ dt) Hs.2 in
  (zip4_with (λ y1_ f_eval_ g_eval_ g_weight_,
       y1_ ⊕ alpha s ⊗ f_eval_ ⊗ dt ⊕ g_weight_ ⊗ g_eval_)
     st.1.1 f_eval g_eval (g_weight dt sqrt_dt I_k I_kk I_k0 I_kkk s),
   st.1.2 ++ [Hs.1], st.2 ++ [Hs.2]).

Definition stage_events (self : SRKDiagonal) (t0 : T) (y0 : list T)
    (dt sqrt_dt : T) (I_k0 : list T)
    (st : list T * list (list T) * list (list T)) (s : nat) : list event :=
  let Hs := stage_values self t0 y0 dt sqrt_dt I_k0 st.1.2 st.2 s in
  concat (map (inner_events self t0 dt st.1.2 st.2) (seq 0 s))
  ++ [CallF (t0 ⊕ C0 s ⊗ dt) Hs.1; CallG (t0 ⊕ C1 s ⊗ dt) Hs.2].

(** The loop variables after the first [n] stages, and the calls made. *)
Fixpoint stages_pure (self : SRKDiagonal) (t0 : T) (y0 : list T)
    (dt sqrt_dt : T) (I_k I_kk I_k0 I_kkk : list T) (n : nat)
    : list T * list (list T) * list (list T) :=
  match n with
  | O => (y0, [], [])
  | S n =>
      stage_pure self t0 y0 dt sqrt_dt I_k I_kk I_k0 I_kkk
        (stages_pure self t0 y0 dt sqrt_dt I_k I_kk I_k0 I_kkk n) n
  end.

Fixpoint stages_events (self : SRKDiagonal) (t0 : T) (y0 : list T)
    (dt sqrt_dt : T) (I_k I_kk I_k0 I_kkk : list T) (n : nat) : list event :=
  match n with
  | O => []
  | S n =>
      stages_events self t0 y0 dt sqrt_dt I_k I_kk I_k0 I_kkk n
      ++ stage_events self t0 y0 dt sqrt_dt I_k0
           (stages_pure self t0 y0 dt sqrt_dt I_k I_kk I_k0 I_kkk n) n
  end.

Definition locals_pure (self : SRKDiagonal) (t0 : T) (y0 : list T) (dt : T)
    (p : nat) : locals :=
  let I_k := I_k_pure self t0 y0 dt in
  let I_kk := map (λ delta_bm_, (delta_bm_ ^^ 2 ⊖ dt) ⊘ #2) I_k in
  let I_k0 := I_k0_pure self t0 y0 dt p in
  let I_kkk := map (λ delta_bm_, (delta_bm_ ^^ 3 ⊖ #3 ⊗ dt ⊗ delta_bm_) ⊘ #6) I_k in
  let st := stages_pure self t0 y0 dt (sqrt dt) I_k I_kk I_k0 I_kkk STAGES in
  {| sqrt_dt := sqrt dt; I_k := I_k; I_kk := I_kk; I_k0 := I_k0; I_kkk := I_kkk;
     H0 := st.1.2; H1 := st.2; t1 := t0 ⊕ dt; y1 := st.1.1 |}.

Definition step_events (self : SRKDiagonal) (t0 : T) (y0 : list T) (dt : T)
    (p : nat) : list event :=
  let l := locals_pure self t0 y0 dt p in
  [CallBm (t0 ⊕ dt); CallBm t0] ++ I_k0_events self t0 y0 dt
  ++ stages_events self t0 y0 dt (sqrt dt) (I_k l) (I_kk l) (I_k0 l) (I_kkk l)
       STAGES.

(** [y0[0]] is needed once per block of the Brownian increment. *)
Definition ref_ok (self : SRKDiagonal) (t0 : T) (y0 : list T) (dt : T) : Prop :=
  y0 = [] → I_k_pure self t0 y0 dt = [].


(** ** Block counts *)

(** The blocks of the tuples zipped with [y1] at stage [s]: the drift and
    diffusion values and the weight (itself zipped from the integrals). *)
Definition stage_blocks (self : SRKDiagonal) (t0 dt : T) (L : locals) (s : nat)
    : nat :=
  Nat.min (length (f (sde self) (t0 ⊕ C0 s ⊗ dt) (nth s (H0 L) [])))
    (Nat.min (length (g (sde self) (t0 ⊕ C1 s ⊗ dt) (nth s (H1 L) [])))
       (Nat.min (length (I_k L)) (length (I_k0 L)))).

(** ** Evaluating the drift and the diffusion once per stage *)

(** The variant of [step] that keeps the values of [f] and [g] of every
    stage and reads them back in the inner loop instead of calling [f] and
    [g] again.  Only the loops differ from [step]. *)
Definition inner_cached (dt sqrt_dt : T) (I_k0 : list T)
    (F G : list (list T)) (s : nat)
    (acc : list T * list T) (j : nat) : M (list T * list T) :=
  let '(H0s, H1s) := acc in
  do f_eval <~ index F j;
  do g_eval <~ index G j;
  let H0s := zip4_with (λ H0s_ f_eval_ g_eval_ I_k0_,
                 H0s_ ⊕ A0 s j ⊗ f_eval_ ⊗ dt ⊕ B0 s j ⊗ g_eval_ ⊗ I_k0_ ⊘ dt)
               H0s f_eval g_eval I_k0 in
  let H1s := zip3_with (λ H1s_ f_eval_ g_eval_,
                 H1s_ ⊕ A1 s j ⊗ f_eval_ ⊗ dt ⊕ B1 s j ⊗ g_eval_ ⊗ sqrt_dt)
               H1s f_eval g_eval in
  ret (H0s, H1s).

Definition stage_cached (self : SRKDiagonal) (t0 : T) (y0 : list T)
    (dt sqrt_dt : T) (I_k I_kk I_k0 I_kkk : list T)
    (st : list T * list (list T) * list (list T)) (s : nat)
    : M (list T * list (list T) * list (list T)) :=
  let '(y1, F, G) := st in
  do '(H0s, H1s) <~ foldM (inner_cached dt sqrt_dt I_k0 F G s) (seq 0 s) (y0, y0);
  do f_eval <~ call_f self (t0 ⊕ C0 s ⊗ dt) H0s;
  do g_eval <~ call_g self (t0 ⊕ C1 s ⊗ dt) H1s;
  let g_weight := g_weight dt sqrt_dt I_k I_kk I_k0 I_kkk s in
  let y1 := zip4_with (λ y1_ f_eval_ g_eval_ g_weight_,
                y1_ ⊕ alpha s ⊗ f_eval_ ⊗ dt ⊕ g_weight_ ⊗ g_eval_)
              y1 f_eval g_eval g_weight in
  ret (y1, F ++ [f_eval], G ++ [g_eval]).

Definition step_cached (self : SRKDiagonal) (t0 : T) (y0 : list T) (dt : T)
    : M (T * list T) :=
  do _ <~ py_assert (gt dt #0);
  do '(sqrt_dt, I_k, I_kk, I_k0, I_kkk) <~ integrals self t0 y0 dt;
  let t1 := t0 ⊕ dt in
  do '(y1, F, G) <~
    foldM (stage_cached self t0 y0 dt sqrt_dt I_k I_kk I_k0 I_kkk)
          (seq 0 STAGES) (y0, [], []);
  ret (t1, y1).

(** Counting the calls of one kind in a log. *)
Definition is_call_f (e : event) : bool :=
  match e with CallF _ _ => true | _ => false end.

Definition is_call_g (e : event) : bool :=
  match e with CallG _ _ => true | _ => false end.

Fixpoint count_calls (p : event → bool) (es : list event) : nat :=
  match es with
  | [] => 0
  | e :: es => (if p e then 1 else 0) + count_calls p es
  end.

(** The values kept after [n] stages, and the calls of the variant. *)
Definition kept_f (self : SRKDiagonal) (t0 : T) (y0 : list T) (dt sqrt_dt : T)
    (I_k I_kk I_k0 I_kkk : list T) (n : nat) : list (list T) :=
  map (λ s, f (sde self) (t0 ⊕ C0 s ⊗ dt)
              (stage_values self t0 y0 dt sqrt_dt I_k0
                 (stages_pure self t0 y0 dt sqrt_dt I_k I_kk I_k0 I_kkk s).1.2
                 (stages_pure self t0 y0 dt sqrt_dt I_k I_kk I_k0 I_kkk s).2 s).1)
      (seq 0 n).

Definition kept_g (self : SRKDiagonal) (t0 : T) (y0 : list T) (dt sqrt_dt : T)
    (I_k I_kk I_k0 I_kkk : list T) (n : nat) : list (list T) :=
  map (λ s, g (sde self) (t0 ⊕ C1 s ⊗ dt)
              (stage_values self t0 y0 dt sqrt_dt I_k0
                 (stages_pure self t0 y0 dt sqrt_dt I_k I_kk I_k0 I_kkk s).1.2
                 (stages_pure self t0 y0 dt sqrt_dt I_k I_kk I_k0 I_kkk s).2 s).2)
      (seq 0 n).

Definition cached_events (self : SRKDiagonal) (t0 : T) (y0 : list T)
    (dt sqrt_dt : T) (I_k I_kk I_k0 I_kkk : list T) (n : nat) : list event :=
  concat (map (λ s,
      let Hs := stage_values self t0 y0 dt sqrt_dt I_k0
                  (stages_pure self t0 y0 dt sqrt_dt I_k I_kk I_k0 I_kkk s).1.2
                  (stages_pure self t0 y0 dt sqrt_dt I_k I_kk I_k0 I_kkk s).2 s in
      [CallF (t0 ⊕ C0 s ⊗ dt) Hs.1; CallG (t0 ⊕ C1 s ⊗ dt) Hs.2])
    (seq 0 n)).

Definition step_cached_events (self : SRKDiagonal) (t0 : T) (y0 : list T)
    (dt : T) (p : nat) : list event :=
  let l := locals_pure self t0 y0 dt p in
  [CallBm (t0 ⊕ dt); CallBm t0] ++ I_k0_events self t0 y0 dt
  ++ cached_events self t0 y0 dt (sqrt dt) (I_k l) (I_kk l) (I_k0 l) (I_kkk l)
       STAGES.

(** ** The update in closed form *)

(** [sum_n n term]: the sum of [term 0], ..., [term (n - 1)]. *)
Fixpoint sum_n (n : nat) (term : nat → T) : T :=
  match n with
  | O => #0
  | S n => sum_n n term ⊕ term n
  end.

(** The interface contract on block structure: the state, the Brownian
    values, what the trapezoidal helper returns and the values of [f] and
    [g] all have the same [n] blocks. *)
Record block_contract (n : nat) (self : SRKDiagonal) (y0 : list T) : Prop := {
  state_blocks : length y0 = n;
  bm_blocks : ∀ t, length (bm self t) = n;
  f_blocks : ∀ t y, length y = n → length (f (sde self) t y) = n;
  g_blocks : ∀ t y, length y = n → length (g (sde self) t y) = n;
  trapezoidal_blocks : ∀ t0 dt sqrt_dt,
    length (compute_trapezoidal_approx (bm self) t0 y0 dt sqrt_dt) = n;
}.

(** Block [b] of [f(t0 + C0[s] dt, Hs[s])] and of [g(t0 + C1[s] dt, Hs[s])]. *)
Definition f_at (self : SRKDiagonal) (t0 dt : T) (Hs : list (list T))
    (s b : nat) : T :=
  nth b (f (sde self) (t0 ⊕ C0 s ⊗ dt) (nth s Hs [])) #0.

Definition g_at (self : SRKDiagonal) (t0 dt : T) (Hs : list (list T))
    (s b : nat) : T :=
  nth b (g (sde self) (t0 ⊕ C1 s ⊗ dt) (nth s Hs [])) #0.

(** Block [b] of stage [s], from the stages [prev0], [prev1] before it. *)
Definition H0_block (self : SRKDiagonal) (t0 : T) (y0 : list T) (dt : T)
    (I_k0 : list T) (prev0 prev1 : list (list T)) (s b : nat) : T :=
  nth b y0 #0
  ⊕ sum_n s (λ j, A0 s j ⊗ f_at self t0 dt prev0 j b ⊗ dt
                  ⊕ B0 s j ⊗ g_at self t0 dt prev1 j b ⊗ nth b I_k0 #0 ⊘ dt).

Definition H1_block (self : SRKDiagonal) (t0 : T) (y0 : list T) (dt : T)
    (prev0 prev1 : list (list T)) (s b : nat) : T :=
  nth b y0 #0
  ⊕ sum_n s (λ j, A1 s j ⊗ f_at self t0 dt prev0 j b ⊗ dt
                  ⊕ B1 s j ⊗ g_at self t0 dt prev1 j b ⊗ sqrt dt).

(** Block [b] of the weight of the diffusion term at stage [s]. *)
Definition g_weight_block (dt : T) (I_k I_kk I_k0 I_kkk : list T)
    (s b : nat) : T :=
  beta1 s ⊗ nth b I_k #0 ⊕ beta2 s ⊗ nth b I_kk #0 ⊘ sqrt dt
  ⊕ beta3 s ⊗ nth b I_k0 #0 ⊘ dt ⊕ beta4 s ⊗ nth b I_kkk #0 ⊘ dt.

(** Block [b] of the new state. *)
Definition y1_block (self : SRKDiagonal) (t0 : T) (y0 : list T) (dt : T)
    (L : locals) (b : nat) : T :=
  nth b y0 #0
  ⊕ sum_n STAGES (λ s,
        alpha s ⊗ f_at self t0 dt (H0 L) s b ⊗ dt
        ⊕ g_weight_block dt (I_k L) (I_kk L) (I_k0 L) (I_kkk L) s b
          ⊗ g_at self t0 dt (H1 L) s b).

(** The explicit Runge-Kutta method of the drift alone, on the tableau's
    [C0], [A0] and [alpha]. *)
Fixpoint rk_stages (drift : T → list T → list T) (t0 : T) (y0 : list T)
    (dt : T) (n : nat) : list (list T) :=
  match n with
  | O => []
  | S n =>
      let K := rk_stages drift t0 y0 dt n in
      K ++ [map (λ b, nth b y0 #0
                      ⊕ sum_n n (λ j, A0 n j
                                      ⊗ nth b (drift (t0 ⊕ C0 j ⊗ dt) (nth j K [])) #0
                                      ⊗ dt))
              (seq 0 (length y0))]
  end.

Definition rk_update (drift : T → list T → list T) (t0 : T) (y0 : list T)
    (dt : T) : list T :=
  let K := rk_stages drift t0 y0 dt STAGES in
  map (λ b, nth b y0 #0
            ⊕ sum_n STAGES (λ s, alpha s
                                       ⊗ nth b (drift (t0 ⊕ C0 s ⊗ dt) (nth s K [])) #0
                                       ⊗ dt))
    (seq 0 (length y0)).

End Program.

(** Two tableaus that agree wherever [step] reads them: on the stage count,
    on the vectors at the stages [s < STAGES] and on the matrices at
    [j < s < STAGES]. *)
Definition same_entries_read {T : Type} (tab1 tab2 : Tableau T) : Prop :=
  STAGES (Tableau := tab1) = STAGES (Tableau := tab2)
  ∧ ∀ s, s < STAGES (Tableau := tab1) →
      C0 (Tableau := tab1) s = C0 (Tableau := tab2) s
      ∧ C1 (Tableau := tab1) s = C1 (Tableau := tab2) s
      ∧ alpha (Tableau := tab1) s = alpha (Tableau := tab2) s
      ∧ beta1 (Tableau := tab1) s = beta1 (Tableau := tab2) s
      ∧ beta2 (Tableau := tab1) s = beta2 (Tableau := tab2) s
      ∧ beta3 (Tableau := tab1) s = beta3 (Tableau := tab2) s
      ∧ beta4 (Tableau := tab1) s = beta4 (Tableau := tab2) s
      ∧ ∀ j, j < s →
          A0 (Tableau := tab1) s j = A0 (Tableau := tab2) s j
          ∧ A1 (Tableau := tab1) s j = A1 (Tableau := tab2) s j
          ∧ B0 (Tableau := tab1) s j = B0 (Tableau := tab2) s j
          ∧ B1 (Tableau := tab1) s j = B1 (Tableau := tab2) s j.

(** ** Data for runs on the integer backend

    A three-stage tableau with integer entries (not SRID2, whose entries are
    fractions), a two-block Brownian path, a helper and a generator, on
    which the definitions above run. *)

Definition ex_tab : Tableau Z := {|
  STAGES := 3;
  C0 := λ s, Z.of_nat s;
  C1 := λ s, (2 * Z.of_nat s)%Z;
  A0 := λ s j, (Z.of_nat s + Z.of_nat j)%Z;
  A1 := λ s j, 2%Z;
  B0 := λ s j, 3%Z;
  B1 := λ s j, (5 - Z.of_nat j)%Z;
  alpha := λ s, (7 + Z.of_nat s)%Z;
  beta1 := λ s, 1%Z;
  beta2 := λ s, (-1)%Z;
  beta3 := λ s, 2%Z;
  beta4 := λ s, Z.of_nat s;
|}.

(** [ex_tab] with other entries on and above the diagonals of the matrices
    and beyond the last stage. *)
Definition ex_tab' : Tableau Z := {|
  STAGES := 3;
  C0 := λ s, if s <? 3 then Z.of_nat s else 100%Z;
  C1 := λ s, (2 * Z.of_nat s)%Z;
  A0 := λ s j, if j <? s then (Z.of_nat s + Z.of_nat j)%Z else 9%Z;
  A1 := λ s j, if j <? s then 2%Z else (-4)%Z;
  B0 := λ s j, if j <? s then 3%Z else 1%Z;
  B1 := λ s j, if j <? s then (5 - Z.of_nat j)%Z else 8%Z;
  alpha := λ s, (7 + Z.of_nat s)%Z;
  beta1 := λ s, 1%Z;
  beta2 := λ s, (-1)%Z;
  beta3 := λ s, if s <? 3 then 2%Z else 0%Z;
  beta4 := λ s, Z.of_nat s;
|}.

Definition ex_bm (t : Z) : list Z := [t; (2 * t)%Z].

Definition ex_externals : Externals Z := {|
  compute_trapezoidal_approx := λ bm t0 y0 dt sqrt_dt,
    map (λ x, (x * dt)%Z) (bm (t0 + dt)%Z);
  randn := λ k, (3 + Z.of_nat k)%Z;
|}.

Definition ex_sde : SDE (T := Z) := {|
  f := λ t y, map (λ x, (x + t)%Z) y;
  g := λ t y, map (λ x, (x - 1)%Z) y;
|}.

(** The same drift with no diffusion. *)
Definition ex_sde_zero : SDE (T := Z) := {|
  f := λ t y, map (λ x, (x + t)%Z) y;
  g := λ t y, map (λ _, 0%Z) y;
|}.

(** A drift that returns one block too many and a diffusion that always
    returns two blocks. *)
Definition ex_sde_mismatch : SDE (T := Z) := {|
  f := λ t y, map (λ x, (x + t)%Z) y ++ [7%Z];
  g := λ t y, [1%Z; t];
|}.

Definition ex_world : world (T := Z) := {| rng_pos := 0; calls := [] |}.

Definition ex_world' : world (T := Z) :=
  {| rng_pos := 5; calls := [CallRandn; CallBm 1%Z] |}.

Definition ex_gaussian : gmap string pyval :=
  {[ "trapezoidal_approx" := PyBool false ]}.

(** ** A backend with two dtypes

    Tensors with integer values in one of two floating dtypes: a wide one
    that holds the integers met here exactly, and a narrow one that keeps 24
    significant bits, the way float64 and float32 hold integers.  An
    operation with a wide operand gives a wide result, a literal is narrow
    (a Python scalar does not widen a tensor), and [to] moves a value to the
    dtype of its reference. *)
Record dtensor := { val : Z; wide : bool }.

(** Rounding to 24 significant bits, ties to even. *)
Definition round24 (z : Z) : Z :=
  let a := Z.abs z in
  if (a <? 2 ^ 24)%Z then z
  else
    let e := (Z.log2 a - 23)%Z in
    let q := (a / 2 ^ e)%Z in
    let r := (a mod 2 ^ e)%Z in
    let half := (2 ^ (e - 1))%Z in
    let q' := if (half <? r)%Z || ((r =? half)%Z && Z.odd q)
              then (q + 1)%Z else q in
    (Z.sgn z * (q' * 2 ^ e))%Z.

Definition in_dtype (w : bool) (z : Z) : dtensor :=
  {| val := if w then z else round24 z; wide := w |}.

#[export] Instance dtensor_numeric : Numeric dtensor := {|
  add := λ x y, in_dtype (wide x || wide y) (val x + val y);
  sub := λ x y, in_dtype (wide x || wide y) (val x - val y);
  mul := λ x y, in_dtype (wide x || wide y) (val x * val y);
  div := λ x y, in_dtype (wide x || wide y) (val x / val y);
  pow := λ x n, in_dtype (wide x) (val x ^ Z.of_nat n);
  sqrt := λ x, in_dtype (wide x) (Z.sqrt (val x));
  to := λ x ref, in_dtype (wide ref) (val x);
  lit := λ z, {| val := z; wide := false |};
  gt := λ x y, (val x >? val y)%Z;
|}.

(** A wide Brownian path against a narrow state: one stage, a path with two
    blocks whose first increment over [[0, 1]] is [2^24 + 1]. *)
Definition ex_dtab : Tableau dtensor := {|
  STAGES := 1;
  C0 := λ s, #0; C1 := λ s, #0;
  A0 := λ s j, #0; A1 := λ s j, #0; B0 := λ s j, #0; B1 := λ s j, #0;
  alpha := λ s, #1;
  beta1 := λ s, #1; beta2 := λ s, #0; beta3 := λ s, #0; beta4 := λ s, #0;
|}.

Definition ex_dexternals : Externals dtensor := {|
  compute_trapezoidal_approx := λ bm t0 y0 dt sqrt_dt, bm t0;
  randn := λ k, #0;
|}.

Definition ex_dbm (t : dtensor) : list dtensor :=
  if (val t =? 0)%Z
  then [{| val := 1; wide := true |}; {| val := 1; wide := true |}]
  else [{| val := 16777218; wide := true |}; {| val := 7; wide := true |}].

Definition ex_dsde : SDE (T := dtensor) := {|
  f := λ t y, y;
  g := λ t y, y;
|}.

Definition ex_dstate : list dtensor :=
  [{| val := 1; wide := false |}; {| val := 2; wide := false |}].

Definition ex_dworld : world (T := dtensor) := {| rng_pos := 0; calls := [] |}.

(** * Properties *)

#[export] Instance Z_gt_laws : GtLaws Z.
Proof.
  split; simpl; intros.
  - rewrite Z.gtb_ltb. apply Z.ltb_irrefl.
  - rewrite Z.gtb_ltb in *. apply Z.ltb_lt in H. apply Z.ltb_ge. lia.
Qed.

#[export] Instance Z_add_laws : AddLaws Z.
Proof. split; simpl; intros; lia. Qed.

#[export] Instance Z_zero_laws : ZeroLaws Z.
Proof.
  split; simpl; intros.
  - apply Z.mul_0_l.
  - apply Z.mul_0_r.
  - apply Zdiv_0_l.
Qed.

#[export] Instance R_gt_laws : GtLaws R.
Proof.
  split; simpl; intros; unfold Rgtb in *.
  - destruct (Rlt_dec x x); [lra | reflexivity].
  - destruct (Rlt_dec y x); [| discriminate].
    destruct (Rlt_dec x y); [lra | reflexivity].
Qed.

#[export] Instance R_add_laws : AddLaws R.
Proof. split; simpl; intros; lra. Qed.

#[export] Instance R_zero_laws : ZeroLaws R.
Proof. split; simpl; intros; unfold Rdiv; lra. Qed.

Section Proofs.
Context {T : Type} {num : Numeric T} {tab : Tableau T} {ext : Externals T}.

Local Abbreviation event := (@event T).
Local Abbreviation world := (@world T).
Local Abbreviation M := (@M T).
Local Abbreviation SDE := (@SDE T).
Local Abbreviation SRKDiagonal := (@SRKDiagonal T).
Local Abbreviation locals := (@locals T).

(** ** Running the monad *)

Lemma log_log (es1 es2 : list event) (w : world) :
  log es2 (log es1 w) = log (es1 ++ es2) w.
Proof. unfold log; simpl. by rewrite <- app_assoc. Qed.

Lemma log_nil (w : world) : log [] w = w.
Proof. destruct w; unfold log; simpl. by rewrite app_nil_r. Qed.

Lemma bind_ok {A B} (m : M A) (k : A → M B) w a w' :
  m w = (Ok a, w') → bind m k w = k a w'.
Proof. intros E. unfold bind. by rewrite E. Qed.

Lemma bind_raise {A B} (m : M A) (k : A → M B) w e w' :
  m w = (Raise e, w') → bind m k w = (Raise e, w').
Proof. intros E. unfold bind. by rewrite E. Qed.

Lemma foldM_app {A B} (body : A → B → M A) (l1 l2 : list B) (a : A) (w : world) :
  foldM body (l1 ++ l2) a w = bind (foldM body l1 a) (foldM body l2) w.
Proof.
  revert a w. induction l1 as [|x l1 IH]; intros a w; simpl.
  - reflexivity.
  - unfold bind. destruct (body a x w) as [[a'|e] w1].
    + rewrite IH. reflexivity.
    + reflexivity.
Qed.

(** A loop whose passes never raise runs as a fold. *)
Lemma foldM_run {A B} (body : A → B → M A) (pure : A → B → A)
    (ev : B → list event) (l : list B) :
  (∀ x a w, x ∈ l → body a x w = (Ok (pure a x), log (ev x) w)) →
  ∀ a w, foldM body l a w = (Ok (foldl pure a l), log (concat (map ev l)) w).
Proof.
  induction l as [|x l IH]; intros Hb a w; simpl.
  - by rewrite log_nil.
  - erewrite bind_ok; [| apply Hb; left].
    rewrite IH; [| intros; apply Hb; by right].
    by rewrite log_log.
Qed.

Lemma index_ok {A} (l : list A) (i : nat) (d : A) (w : world) :
  i < length l → index l i w = (Ok (nth i l d), w).
Proof.
  intros Hi. unfold index.
  destruct (lookup_lt_is_Some_2 l i Hi) as [a Ha]. rewrite Ha.
  by rewrite (nth_lookup_Some _ _ d _ Ha).
Qed.

(** The Brownian increment: [y0[0]] is read once per block. *)
Lemma I_k_run_ok (y0 : list T) (l : list (T * T)) (w : world) :
  y0 ≠ [] ∨ l = [] →
  mapM (λ '(bm_next, bm_cur),
         bind (index y0 0) (λ ref, ret (to (bm_next ⊖ bm_cur) ref))) l w
  = (Ok (map (λ p, to (p.1 ⊖ p.2) (nth 0 y0 #0)) l), w).
Proof.
  intros Hy. induction l as [|[a b] l IH]; simpl.
  - reflexivity.
  - destruct Hy as [Hy|Hy]; [| discriminate].
    destruct y0 as [|r y0]; [done|].
    unfold bind at 1. simpl. unfold bind at 1.
    rewrite IH; [| by left]. reflexivity.
Qed.

Lemma I_k_run_raise (l : list (T * T)) (w : world) :
  l ≠ [] →
  mapM (λ '(bm_next, bm_cur),
         bind (index [] 0) (λ ref, ret (to (bm_next ⊖ bm_cur) ref))) l w
  = (Raise IndexError, w).
Proof. destruct l as [|[a b] l]; [done|]. reflexivity. Qed.

(** The Gaussian correction: one draw of the generator per block. *)
Lemma gaussian_run (dt : T) (l : list T) (w : world) :
  mapM (λ delta_bm_,
         bind (randn_like delta_bm_)
           (λ z, ret (dt ⊘ #2 ⊗ (delta_bm_ ⊕ z ⊗ sqrt dt ⊘ sqrt #3)))) l w
  = (Ok (gaussian_I_k0 dt (rng_pos w) l),
     {| rng_pos := rng_pos w + length l;
        calls := calls w ++ replicate (length l) CallRandn |}).
Proof.
  unfold gaussian_I_k0. revert w. induction l as [|x l IH]; intros w; simpl.
  - destruct w; simpl. by rewrite Nat.add_0_r, app_nil_r.
  - unfold bind at 1. simpl. unfold bind at 1. rewrite IH. simpl.
    unfold ret. f_equal.
    + f_equal. f_equal.
      * by rewrite Nat.add_0_r.
      * apply imap_ext. intros i y _. simpl. by rewrite Nat.add_succ_r.
    + f_equal; [lia|]. by rewrite <- app_assoc.
Qed.


Lemma I_k_pure_zip (self : SRKDiagonal) (t0 : T) (y0 : list T) (dt : T) :
  I_k_pure self t0 y0 dt
  = map (λ p, to (p.1 ⊖ p.2) (nth 0 y0 #0))
      (zip (bm self (t0 ⊕ dt)) (bm self t0)).
Proof.
  unfold I_k_pure. generalize (bm self (t0 ⊕ dt)) (bm self t0).
  induction l as [|a l IH]; intros [|b k]; simpl; try reflexivity.
  by rewrite IH.
Qed.

Lemma integrals_ok (self : SRKDiagonal) (t0 : T) (y0 : list T) (dt : T) (w : world) :
  ref_ok self t0 y0 dt →
  integrals self t0 y0 dt w
  = (Ok (sqrt dt, I_k_pure self t0 y0 dt,
         map (λ delta_bm_, (delta_bm_ ^^ 2 ⊖ dt) ⊘ #2) (I_k_pure self t0 y0 dt),
         I_k0_pure self t0 y0 dt (rng_pos w),
         map (λ delta_bm_, (delta_bm_ ^^ 3 ⊖ #3 ⊗ dt ⊗ delta_bm_) ⊘ #6)
           (I_k_pure self t0 y0 dt)),
     {| rng_pos := rng_after self t0 y0 dt (rng_pos w);
        calls := calls w ++ [CallBm (t0 ⊕ dt); CallBm t0]
                 ++ I_k0_events self t0 y0 dt |}).
Proof.
  intros Hr. unfold integrals, call_bm.
  unfold bind at 1. unfold bind at 1. rewrite log_log.
  erewrite bind_ok; cycle 1.
  { apply I_k_run_ok. destruct y0 as [|r y0]; [right | by left].
    specialize (Hr eq_refl). rewrite I_k_pure_zip in Hr.
    destruct (zip _ _); [done | discriminate]. }
  rewrite <- I_k_pure_zip.
  unfold I_k0_pure, I_k0_events, rng_after.
  destruct (trapezoidal_approx self).
  - unfold bind, call_trapezoidal, ret. rewrite log_log. reflexivity.
  - erewrite bind_ok; [| apply gaussian_run].
    unfold ret, log; simpl. by rewrite <- !app_assoc.
Qed.

Lemma integrals_raise (self : SRKDiagonal) (t0 dt : T) (w : world) :
  I_k_pure self t0 [] dt ≠ [] →
  integrals self t0 [] dt w
  = (Raise IndexError, log [CallBm (t0 ⊕ dt); CallBm t0] w).
Proof.
  intros Hr. unfold integrals, call_bm.
  unfold bind at 1. unfold bind at 1. rewrite log_log.
  erewrite bind_raise; [reflexivity|].
  apply I_k_run_raise. intros E. apply Hr. by rewrite I_k_pure_zip, E.
Qed.

Lemma inner_ok (self : SRKDiagonal) (t0 dt sqrt_dt : T) (I_k0 : list T)
    (H0 H1 : list (list T)) (s j : nat) (acc : list T * list T) (w : world) :
  j < length H0 → j < length H1 →
  inner self t0 dt sqrt_dt I_k0 H0 H1 s acc j w
  = (Ok (inner_pure self t0 dt sqrt_dt I_k0 H0 H1 s acc j),
     log (inner_events self t0 dt H0 H1 j) w).
Proof.
  intros Hj0 Hj1. destruct acc as [H0s H1s]. unfold inner.
  erewrite bind_ok; [| by apply (index_ok _ _ [])].
  unfold bind at 1, call_f at 1.
  erewrite bind_ok; [| by apply (index_ok _ _ [])].
  unfold bind, call_g, ret. rewrite log_log. reflexivity.
Qed.

Lemma stage_ok (self : SRKDiagonal) (t0 : T) (y0 : list T) (dt sqrt_dt : T)
    (I_k I_kk I_k0 I_kkk : list T)
    (st : list T * list (list T) * list (list T)) (s : nat) (w : world) :
  length st.1.2 = s → length st.2 = s →
  stage self t0 y0 dt sqrt_dt I_k I_kk I_k0 I_kkk st s w
  = (Ok (stage_pure self t0 y0 dt sqrt_dt I_k I_kk I_k0 I_kkk st s),
     log (stage_events self t0 y0 dt sqrt_dt I_k0 st s) w).
Proof.
  destruct st as [[y1 H0] H1]; simpl. intros L0 L1. unfold stage.
  erewrite bind_ok; cycle 1.
  { apply (foldM_run _ (inner_pure self t0 dt sqrt_dt I_k0 H0 H1 s)
             (inner_events self t0 dt H0 H1)).
    intros j a w1 Hj. apply elem_of_seq in Hj. apply inner_ok; lia. }
  unfold stage_pure, stage_events, stage_values; simpl.
  destruct (foldl _ _ _) as [H0s H1s]; simpl.
  unfold bind, call_f, call_g, ret. rewrite !log_log.
  reflexivity.
Qed.

Lemma stages_pure_length (self : SRKDiagonal) (t0 : T) (y0 : list T)
    (dt sqrt_dt : T) (I_k I_kk I_k0 I_kkk : list T) (n : nat) :
  let st := stages_pure self t0 y0 dt sqrt_dt I_k I_kk I_k0 I_kkk n in
  length st.1.2 = n ∧ length st.2 = n.
Proof.
  induction n as [|n [IH0 IH1]]; simpl; [done|].
  rewrite !length_app; simpl. lia.
Qed.

Lemma stages_ok (self : SRKDiagonal) (t0 : T) (y0 : list T) (dt sqrt_dt : T)
    (I_k I_kk I_k0 I_kkk : list T) (n : nat) (w : world) :
  foldM (stage self t0 y0 dt sqrt_dt I_k I_kk I_k0 I_kkk) (seq 0 n) (y0, [], []) w
  = (Ok (stages_pure self t0 y0 dt sqrt_dt I_k I_kk I_k0 I_kkk n),
     log (stages_events self t0 y0 dt sqrt_dt I_k I_kk I_k0 I_kkk n) w).
Proof.
  induction n as [|n IH].
  - simpl. by rewrite log_nil.
  - rewrite seq_S, foldM_app. cbn [stages_pure stages_events Nat.add].
    erewrite bind_ok; [| apply IH]. cbn [foldM].
    destruct (stages_pure_length self t0 y0 dt sqrt_dt I_k I_kk I_k0 I_kkk n)
      as [L0 L1].
    erewrite bind_ok; [| by apply stage_ok].
    unfold ret. by rewrite log_log.
Qed.

(** The three ways [step] ends. *)
Lemma step_locals_ok (self : SRKDiagonal) (t0 : T) (y0 : list T) (dt : T) (w : world) :
  gt dt #0 = true → ref_ok self t0 y0 dt →
  step_locals self t0 y0 dt w
  = (Ok (locals_pure self t0 y0 dt (rng_pos w)),
     {| rng_pos := rng_after self t0 y0 dt (rng_pos w);
        calls := calls w ++ step_events self t0 y0 dt (rng_pos w) |}).
Proof.
  intros Hdt Hr. unfold step_locals. rewrite Hdt; simpl.
  unfold bind at 1; simpl.
  erewrite bind_ok; [| by apply integrals_ok].
  cbv beta iota.
  erewrite bind_ok; [| apply stages_ok].
  unfold locals_pure, step_events; simpl.
  destruct (stages_pure _ _ _ _ _ _ _ _ _ _) as [[y1' H0'] H1'] eqn:E; simpl.
  unfold ret, log; simpl. by rewrite <- !app_assoc.
Qed.

Lemma step_locals_assert (self : SRKDiagonal) (t0 : T) (y0 : list T) (dt : T) (w : world) :
  gt dt #0 = false →
  step_locals self t0 y0 dt w = (Raise AssertionError, w).
Proof. intros Hdt. unfold step_locals. by rewrite Hdt. Qed.

Lemma step_locals_index (self : SRKDiagonal) (t0 dt : T) (w : world) :
  gt dt #0 = true → I_k_pure self t0 [] dt ≠ [] →
  step_locals self t0 [] dt w
  = (Raise IndexError, log [CallBm (t0 ⊕ dt); CallBm t0] w).
Proof.
  intros Hdt Hr. unfold step_locals. rewrite Hdt; simpl.
  unfold bind at 1; simpl.
  erewrite bind_raise; [reflexivity|]. by apply integrals_raise.
Qed.

Lemma step_of_locals (self : SRKDiagonal) (t0 : T) (y0 : list T) (dt : T) (w : world) :
  step self t0 y0 dt w
  = match step_locals self t0 y0 dt w with
    | (Ok l, w') => (Ok (t1 l, y1 l), w')
    | (Raise e, w') => (Raise e, w')
    end.
Proof. reflexivity. Qed.


Lemma ref_ok_dec (self : SRKDiagonal) (t0 : T) (y0 : list T) (dt : T) :
  ref_ok self t0 y0 dt ∨ (y0 = [] ∧ I_k_pure self t0 y0 dt ≠ []).
Proof.
  unfold ref_ok. destruct y0 as [|r y0]; [| by left].
  destruct (I_k_pure self t0 [] dt); [by left | by right].
Qed.

(** A run that returns is the run of [step_locals_ok]. *)
Lemma step_locals_inv (self : SRKDiagonal) (t0 : T) (y0 : list T) (dt : T)
    (w w' : world) (L : locals) :
  step_locals self t0 y0 dt w = (Ok L, w') →
  gt dt #0 = true ∧ ref_ok self t0 y0 dt
  ∧ L = locals_pure self t0 y0 dt (rng_pos w)
  ∧ w' = {| rng_pos := rng_after self t0 y0 dt (rng_pos w);
            calls := calls w ++ step_events self t0 y0 dt (rng_pos w) |}.
Proof.
  intros E. destruct (gt dt #0) eqn:Hdt.
  - destruct (ref_ok_dec self t0 y0 dt) as [Hr|[-> Hr]].
    + rewrite step_locals_ok in E by done. by inversion E.
    + rewrite step_locals_index in E by done. discriminate.
  - rewrite step_locals_assert in E by done. discriminate.
Qed.

Lemma step_inv (self : SRKDiagonal) (t0 : T) (y0 : list T) (dt : T)
    (w w' : world) (r : T * list T) :
  step self t0 y0 dt w = (Ok r, w') →
  ∃ L, step_locals self t0 y0 dt w = (Ok L, w') ∧ r = (t1 L, y1 L).
Proof.
  rewrite step_of_locals.
  destruct (step_locals self t0 y0 dt w) as [[L|e] w1]; [| discriminate].
  intros E. inversion E. by exists L.
Qed.

(** ** The stochastic integrals *)

(** C3, as the code has it: in every run of [step] that returns, [I_k] is
    the per-block difference [bm(t0 + dt) - bm(t0)] moved to the dtype and
    device of [y0[0]] (the difference itself where that move keeps every
    value), and per block [I_kk = (I_k^2 - dt) / 2] and
    [I_kkk = (I_k^3 - 3 dt I_k) / 6]. *)
Theorem step_derived_integrals (self : SRKDiagonal) (t0 : T) (y0 : list T)
    (dt : T) (w w' : world) (L : locals) :
  step_locals self t0 y0 dt w = (Ok L, w') →
  gt dt #0 = true
  ∧ I_k L = match y0 with
            | ref :: _ =>
                zip_with (λ bm_next bm_cur, to (bm_next ⊖ bm_cur) ref)
                  (bm self (t0 ⊕ dt)) (bm self t0)
            | [] => []
            end
  ∧ ((∀ x ref : T, to x ref = x) →
     I_k L = zip_with (λ bm_next bm_cur, bm_next ⊖ bm_cur)
               (bm self (t0 ⊕ dt)) (bm self t0))
  ∧ I_kk L = map (λ I_k_, (I_k_ ^^ 2 ⊖ dt) ⊘ #2) (I_k L)
  ∧ I_kkk L = map (λ I_k_, (I_k_ ^^ 3 ⊖ #3 ⊗ dt ⊗ I_k_) ⊘ #6) (I_k L).
Proof.
  intros E. apply step_locals_inv in E as (Hdt & Hr & -> & _).
  split_and!; try done.
  - cbn [I_k locals_pure]. destruct y0 as [|ref y0']; [by apply Hr | done].
  - intros Hto. cbn [I_k locals_pure]. unfold I_k_pure.
    apply zip_with_ext; [| done..]. intros; apply Hto.
Qed.

(** C4: [trapezoidal_approx] is true when the key is absent or set to
    [True] and false when it is set to [False]; in a run of [step] that
    returns, with the flag false [I_k0] is per block
    [dt / 2 * (I_k + Z * sqrt(dt) / sqrt(3))] with [Z] the generator's next
    draw (one fresh draw per block), and with the flag true [I_k0] is what
    the trapezoidal helper returns on the Brownian path and no draw is
    made. *)
Theorem step_I_k0_mode (sde : SDE) (bm : T → list T) (options : gmap string pyval)
    (t0 : T) (y0 : list T) (dt : T) (w w' : world) (L : locals) :
  step_locals (init sde bm options) t0 y0 dt w = (Ok L, w') →
  match options !! "trapezoidal_approx" with
  | Some (PyBool false) =>
      trapezoidal_approx (init sde bm options) = false
      ∧ I_k0 L = imap (λ i I_k_,
                   dt ⊘ #2 ⊗ (I_k_ ⊕ randn (rng_pos w + i) ⊗ sqrt dt ⊘ sqrt #3))
                 (I_k L)
      ∧ rng_pos w' = rng_pos w + length (I_k L)
  | None | Some (PyBool true) =>
      trapezoidal_approx (init sde bm options) = true
      ∧ I_k0 L = compute_trapezoidal_approx bm t0 y0 dt (sqrt dt)
      ∧ rng_pos w' = rng_pos w
  | Some v =>
      trapezoidal_approx (init sde bm options) = truthy v
  end.
Proof.
  intros E. apply step_locals_inv in E as (_ & _ & -> & ->).
  unfold locals_pure, I_k0_pure, rng_after; simpl.
  destruct (options !! "trapezoidal_approx") as [[|[|]|z|s]|]; simpl;
    try done; [by destruct (z =? 0)%Z | by destruct s].
Qed.

(** ** Preconditions and failures *)

(** C5: with [dt = 0] or [dt < 0] the assertion fails: [step] raises before
    anything else happens (the world is unchanged: no call to the Brownian
    path, the generator, the drift or the diffusion), and the exception is
    its result. *)
Theorem step_nonpositive_dt `{!GtLaws T} (self : SRKDiagonal) (t0 : T)
    (y0 : list T) (dt : T) (w : world) :
  dt = #0 ∨ gt #0 dt = true →
  step self t0 y0 dt w = (Raise AssertionError, w).
Proof.
  intros Hdt. rewrite step_of_locals, step_locals_assert; [done|].
  destruct Hdt as [->|Hdt]; [apply gt_irrefl' | by apply gt_asym'].
Qed.

(** ** Reproducibility *)

(** C7: with [trapezoidal_approx] true, for the same Brownian path, [t0],
    [y0] and [dt], two runs of [step], from any two states of the world,
    end the same way with the same local variables (in particular the same
    [I_k], [I_kk], [I_k0], [I_kkk]) and the same [(t1, y1)]. *)
Theorem step_reproducible (self : SRKDiagonal) (t0 : T) (y0 : list T) (dt : T)
    (w1 w2 : world) :
  trapezoidal_approx self = true →
  (step_locals self t0 y0 dt w1).1 = (step_locals self t0 y0 dt w2).1
  ∧ (step self t0 y0 dt w1).1 = (step self t0 y0 dt w2).1.
Proof.
  intros Htr.
  assert ((step_locals self t0 y0 dt w1).1 = (step_locals self t0 y0 dt w2).1) as E.
  { destruct (gt dt #0) eqn:Hdt.
    - destruct (ref_ok_dec self t0 y0 dt) as [Hr|[-> Hr]].
      + rewrite !step_locals_ok by done; simpl.
        unfold locals_pure, I_k0_pure. by rewrite Htr.
      + by rewrite !step_locals_index.
    - by rewrite !step_locals_assert. }
  split; [done|]. rewrite !step_of_locals.
  destruct (step_locals self t0 y0 dt w1) as [[L1|e1] w1'],
           (step_locals self t0 y0 dt w2) as [[L2|e2] w2']; simpl in *;
    by inversion E.
Qed.

(** ** The declared order *)

(** C8: [strong_order] is [1.5] for every solver object, whatever its
    collaborators and options. *)
Theorem strong_order_value (self : SRKDiagonal) :
  strong_order self = 1.5%Q ∧ (strong_order self == Qmake 3 2)%Q.
Proof. split; reflexivity. Qed.


(** ** Tuples zipped together *)

Lemma length_zip3_with {A B C D} (h : A → B → C → D) l1 l2 l3 :
  length (zip3_with h l1 l2 l3)
  = Nat.min (length l1) (Nat.min (length l2) (length l3)).
Proof.
  revert l2 l3. induction l1 as [|a l1 IH]; intros [|b l2] [|c l3]; simpl;
    try reflexivity; try lia.
  rewrite IH. lia.
Qed.

Lemma length_zip4_with {A B C D E} (h : A → B → C → D → E) l1 l2 l3 l4 :
  length (zip4_with h l1 l2 l3 l4)
  = Nat.min (length l1) (Nat.min (length l2) (Nat.min (length l3) (length l4))).
Proof.
  revert l2 l3 l4.
  induction l1 as [|a l1 IH]; intros [|b l2] [|c l3] [|d l4]; simpl;
    try reflexivity; try lia.
  rewrite IH. lia.
Qed.

Lemma nth_zip3_with {A B C D} (h : A → B → C → D) l1 l2 l3 i a b c d :
  i < length l1 → i < length l2 → i < length l3 →
  nth i (zip3_with h l1 l2 l3) d = h (nth i l1 a) (nth i l2 b) (nth i l3 c).
Proof.
  revert i l2 l3.
  induction l1 as [|x1 l1 IH]; intros i [|x2 l2] [|x3 l3]; simpl;
    try lia.
  destruct i as [|i]; [reflexivity|]. intros. apply IH; lia.
Qed.

Lemma nth_zip4_with {A B C D E} (h : A → B → C → D → E) l1 l2 l3 l4 i a b c d e :
  i < length l1 → i < length l2 → i < length l3 → i < length l4 →
  nth i (zip4_with h l1 l2 l3 l4) e
  = h (nth i l1 a) (nth i l2 b) (nth i l3 c) (nth i l4 d).
Proof.
  revert i l2 l3 l4.
  induction l1 as [|x1 l1 IH]; intros i [|x2 l2] [|x3 l3] [|x4 l4]; simpl;
    try lia.
  destruct i as [|i]; [reflexivity|]. intros. apply IH; lia.
Qed.


(** ** The stages, one after the other *)

Section Stages.
Variables (self : SRKDiagonal) (t0 : T) (y0 : list T) (dt sqrt_dt : T).
Variables (I_k I_kk I_k0 I_kkk : list T).

Local Abbreviation SP := (stages_pure self t0 y0 dt sqrt_dt I_k I_kk I_k0 I_kkk).
Local Abbreviation SV s :=
  (stage_values self t0 y0 dt sqrt_dt I_k0 (SP s).1.2 (SP s).2 s).

Lemma stages_pure_S (n : nat) :
  SP (S n)
  = (zip4_with (λ y1_ f_eval_ g_eval_ g_weight_,
         y1_ ⊕ alpha n ⊗ f_eval_ ⊗ dt ⊕ g_weight_ ⊗ g_eval_)
       (SP n).1.1
       (f (sde self) (t0 ⊕ C0 n ⊗ dt) (SV n).1)
       (g (sde self) (t0 ⊕ C1 n ⊗ dt) (SV n).2)
       (g_weight dt sqrt_dt I_k I_kk I_k0 I_kkk n),
     (SP n).1.2 ++ [(SV n).1], (SP n).2 ++ [(SV n).2]).
Proof. reflexivity. Qed.

(** Stage [s] is stored at index [s] and never changed afterwards. *)
Lemma nth_stages_pure (s N : nat) :
  s < N →
  nth s (SP N).1.2 [] = (SV s).1 ∧ nth s (SP N).2 [] = (SV s).2.
Proof.
  induction N as [|N IH]; [lia|]. intros Hs.
  destruct (stages_pure_length self t0 y0 dt sqrt_dt I_k I_kk I_k0 I_kkk N)
    as [L0 L1].
  rewrite stages_pure_S; cbn [fst snd].
  destruct (decide (s = N)) as [->|Hne].
  - rewrite !app_nth2 by lia. rewrite L0, L1, Nat.sub_diag. done.
  - rewrite !app_nth1 by lia. apply IH. lia.
Qed.

Lemma take_stages_pure (s N : nat) :
  s ≤ N →
  take s (SP N).1.2 = (SP s).1.2 ∧ take s (SP N).2 = (SP s).2.
Proof.
  induction N as [|N IH]; intros Hs.
  - by replace s with 0 by lia.
  - destruct (stages_pure_length self t0 y0 dt sqrt_dt I_k I_kk I_k0 I_kkk N)
      as [L0 L1].
    destruct (decide (s = S N)) as [->|Hne].
    + destruct (stages_pure_length self t0 y0 dt sqrt_dt I_k I_kk I_k0 I_kkk (S N))
        as [L0' L1'].
      split; apply take_ge; lia.
    + rewrite stages_pure_S; cbn [fst snd].
      rewrite !take_app_le by lia. apply IH. lia.
Qed.

(** The blocks of [y1] after [n] stages. *)
Lemma length_stages_y1 (n N : nat) :
  n ≤ N →
  length (SP n).1.1
  = foldl (λ m s,
        Nat.min m
          (Nat.min (length (f (sde self) (t0 ⊕ C0 s ⊗ dt) (nth s (SP N).1.2 [])))
             (Nat.min (length (g (sde self) (t0 ⊕ C1 s ⊗ dt) (nth s (SP N).2 [])))
                (length (g_weight dt sqrt_dt I_k I_kk I_k0 I_kkk s)))))
      (length y0) (seq 0 n).
Proof.
  induction n as [|n IH]; intros Hn; [reflexivity|].
  rewrite seq_S, foldl_app; cbn [foldl Nat.add].
  rewrite <- IH by lia.
  destruct (nth_stages_pure n N) as [-> ->]; [lia|].
  rewrite stages_pure_S; cbn [fst snd].
  by rewrite length_zip4_with.
Qed.

End Stages.


Lemma foldl_ext_in {A B} (h1 h2 : A → B → A) (l : list B) (a : A) :
  (∀ a x, x ∈ l → h1 a x = h2 a x) → foldl h1 a l = foldl h2 a l.
Proof.
  revert a. induction l as [|x l IH]; intros a Hh; simpl; [reflexivity|].
  rewrite Hh by left. apply IH. intros; apply Hh; by right.
Qed.

Lemma step_ok (self : SRKDiagonal) (t0 : T) (y0 : list T) (dt : T) (w : world) :
  gt dt #0 = true → ref_ok self t0 y0 dt →
  step self t0 y0 dt w
  = (Ok (t0 ⊕ dt, y1 (locals_pure self t0 y0 dt (rng_pos w))),
     {| rng_pos := rng_after self t0 y0 dt (rng_pos w);
        calls := calls w ++ step_events self t0 y0 dt (rng_pos w) |}).
Proof. intros Hdt Hr. by rewrite step_of_locals, step_locals_ok. Qed.

(** C10, as the code has it: unless [y0] is empty while the Brownian
    increment has a block (then [y0[0]] raises), [step] with [dt > 0]
    returns whatever the block counts of [y0], of the Brownian values and of
    the values of [f] and [g] are; the increment has as many blocks as the
    shorter of [bm(t0 + dt)] and [bm(t0)], and [y1] as many as the shortest
    of [y0] and, at every stage, of the tuples zipped with it: further
    blocks are dropped. *)
Theorem step_block_counts (self : SRKDiagonal) (t0 : T) (y0 : list T) (dt : T)
    (w : world) :
  gt dt #0 = true →
  (y0 = [] → bm self (t0 ⊕ dt) = [] ∨ bm self t0 = []) →
  ∃ L w',
    step_locals self t0 y0 dt w = (Ok L, w')
    ∧ step self t0 y0 dt w = (Ok (t0 ⊕ dt, y1 L), w')
    ∧ length (I_k L) = Nat.min (length (bm self (t0 ⊕ dt))) (length (bm self t0))
    ∧ length (y1 L)
      = foldl (λ m s, Nat.min m (stage_blocks self t0 dt L s))
          (length y0) (seq 0 STAGES).
Proof.
  intros Hdt Hy.
  assert (ref_ok self t0 y0 dt) as Hr.
  { intros E. unfold I_k_pure. destruct (Hy E) as [-> | ->]; [done|].
    by destruct (bm self (t0 ⊕ dt)). }
  eexists _, _. split; [by apply step_locals_ok|].
  split; [by apply step_ok|].
  split; [apply length_zip_with|].
  unfold locals_pure; cbn [y1 H0 H1 I_k I_k0].
  rewrite (length_stages_y1 _ _ _ _ _ _ _ _ _ STAGES STAGES) by lia.
  apply foldl_ext_in. intros m s _. unfold stage_blocks; cbn [H0 H1 I_k I_k0].
  unfold g_weight. rewrite length_zip4_with, !length_map. lia.
Qed.


Lemma count_calls_app (p : event → bool) (es1 es2 : list event) :
  count_calls p (es1 ++ es2) = count_calls p es1 + count_calls p es2.
Proof. induction es1 as [|e es1 IH]; simpl; [reflexivity|]. rewrite IH. lia. Qed.

Lemma count_calls_concat {B} (p : event → bool) (ev : B → list event)
    (l : list B) (c : nat) :
  (∀ x, count_calls p (ev x) = c) →
  count_calls p (concat (map ev l)) = c * length l.
Proof.
  intros Hc. induction l as [|x l IH]; simpl; [lia|].
  rewrite count_calls_app, Hc, IH. lia.
Qed.

Lemma count_calls_replicate (p : event → bool) (e : event) (n : nat) :
  p e = false → count_calls p (replicate n e) = 0.
Proof. intros Hp. induction n as [|n IH]; simpl; [reflexivity|]. by rewrite Hp. Qed.


Section Cached.
Variables (self : SRKDiagonal) (t0 : T) (y0 : list T) (dt sqrt_dt : T).
Variables (I_k I_kk I_k0 I_kkk : list T).

Local Abbreviation SP := (stages_pure self t0 y0 dt sqrt_dt I_k I_kk I_k0 I_kkk).
Local Abbreviation SV s :=
  (stage_values self t0 y0 dt sqrt_dt I_k0 (SP s).1.2 (SP s).2 s).

Local Abbreviation KF := (kept_f self t0 y0 dt sqrt_dt I_k I_kk I_k0 I_kkk).
Local Abbreviation KG := (kept_g self t0 y0 dt sqrt_dt I_k I_kk I_k0 I_kkk).
Local Abbreviation CE := (cached_events self t0 y0 dt sqrt_dt I_k I_kk I_k0 I_kkk).

Lemma nth_kept_f (j n : nat) :
  j < n → nth j (KF n) [] = f (sde self) (t0 ⊕ C0 j ⊗ dt) (nth j (SP n).1.2 []).
Proof.
  intros Hj. unfold kept_f.
  rewrite (nth_indep _ [] (f (sde self) (t0 ⊕ C0 0 ⊗ dt) (SV 0).1))
    by (rewrite length_map, length_seq; lia).
  rewrite (map_nth (λ s, f (sde self) (t0 ⊕ C0 s ⊗ dt) (SV s).1)).
  rewrite seq_nth by lia; simpl.
  by destruct (nth_stages_pure self t0 y0 dt sqrt_dt I_k I_kk I_k0 I_kkk j n Hj)
    as [-> _].
Qed.

Lemma nth_kept_g (j n : nat) :
  j < n → nth j (KG n) [] = g (sde self) (t0 ⊕ C1 j ⊗ dt) (nth j (SP n).2 []).
Proof.
  intros Hj. unfold kept_g.
  rewrite (nth_indep _ [] (g (sde self) (t0 ⊕ C1 0 ⊗ dt) (SV 0).2))
    by (rewrite length_map, length_seq; lia).
  rewrite (map_nth (λ s, g (sde self) (t0 ⊕ C1 s ⊗ dt) (SV s).2)).
  rewrite seq_nth by lia; simpl.
  by destruct (nth_stages_pure self t0 y0 dt sqrt_dt I_k I_kk I_k0 I_kkk j n Hj)
    as [_ ->].
Qed.

Lemma inner_cached_ok (n s j : nat) (acc : list T * list T) (w : world) :
  j < n →
  inner_cached dt sqrt_dt I_k0 (KF n) (KG n) s acc j w
  = (Ok (inner_pure self t0 dt sqrt_dt I_k0 (SP n).1.2 (SP n).2 s acc j), w).
Proof.
  intros Hj. destruct acc as [H0s H1s]. unfold inner_cached.
  erewrite bind_ok; cycle 1.
  { apply (index_ok _ _ []). unfold kept_f. rewrite length_map, length_seq. lia. }
  erewrite bind_ok; cycle 1.
  { apply (index_ok _ _ []). unfold kept_g. rewrite length_map, length_seq. lia. }
  rewrite nth_kept_f, nth_kept_g by done. reflexivity.
Qed.

Lemma stage_cached_ok (n : nat) (w : world) :
  stage_cached self t0 y0 dt sqrt_dt I_k I_kk I_k0 I_kkk
    ((SP n).1.1, KF n, KG n) n w
  = (Ok ((SP (S n)).1.1, KF (S n), KG (S n)),
     log [CallF (t0 ⊕ C0 n ⊗ dt) (SV n).1;
          CallG (t0 ⊕ C1 n ⊗ dt) (SV n).2] w).
Proof.
  unfold stage_cached.
  erewrite bind_ok; cycle 1.
  { apply (foldM_run _ (inner_pure self t0 dt sqrt_dt I_k0 (SP n).1.2 (SP n).2 n)
             (λ _, [])).
    intros j a w1 Hj. apply elem_of_seq in Hj.
    rewrite log_nil. apply inner_cached_ok. lia. }
  fold (SV n). destruct (SV n) as [H0s H1s] eqn:E; cbn [fst snd].
  unfold bind, call_f, call_g, ret. rewrite !log_log.
  replace (concat (map (λ _ : nat, []) (seq 0 n))) with (@nil event)
    by (induction (seq 0 n); simpl; done).
  rewrite stages_pure_S, E; cbn [fst snd].
  unfold kept_f, kept_g. rewrite !seq_S, !map_app; simpl. by rewrite E.
Qed.

Lemma stages_cached_ok (n : nat) (w : world) :
  foldM (stage_cached self t0 y0 dt sqrt_dt I_k I_kk I_k0 I_kkk) (seq 0 n)
    (y0, [], []) w
  = (Ok ((SP n).1.1, KF n, KG n), log (CE n) w).
Proof.
  revert w. induction n as [|n IH]; intros w.
  - simpl. by rewrite log_nil.
  - rewrite seq_S, foldM_app. erewrite bind_ok; [| apply IH]. cbn [foldM Nat.add].
    erewrite bind_ok; [| apply stage_cached_ok].
    unfold ret. rewrite log_log. unfold cached_events.
    by rewrite seq_S, map_app, concat_app; simpl.
Qed.

(** The calls of [f] and of [g]: [s + 1] at stage [s] in [step], one per
    stage in the variant. *)
Lemma count_stages_events (p : event → bool) (n : nat) :
  (∀ t y, p (CallF t y) = true ∧ p (CallG t y) = false)
  ∨ (∀ t y, p (CallF t y) = false ∧ p (CallG t y) = true) →
  2 * count_calls p (stages_events self t0 y0 dt sqrt_dt I_k I_kk I_k0 I_kkk n)
  = n * (n + 1)
  ∧ count_calls p (CE n) = n.
Proof.
  intros Hp. split.
  - induction n as [|n IH]; [reflexivity|].
    cbn [stages_events]. rewrite count_calls_app. unfold stage_events.
    rewrite count_calls_app.
    rewrite (count_calls_concat _ _ _ 1), length_seq; cycle 1.
    { intros j; simpl. destruct Hp as [Hp|Hp];
        destruct (Hp (t0 ⊕ C0 j ⊗ dt) (nth j (SP n).1.2 [])) as [-> _];
        destruct (Hp (t0 ⊕ C1 j ⊗ dt) (nth j (SP n).2 [])) as [_ ->];
        reflexivity. }
    assert (count_calls p [CallF (t0 ⊕ C0 n ⊗ dt) (SV n).1;
                           CallG (t0 ⊕ C1 n ⊗ dt) (SV n).2] = 1) as ->.
    { simpl. destruct Hp as [Hp|Hp];
        destruct (Hp (t0 ⊕ C0 n ⊗ dt) (SV n).1) as [-> _];
        destruct (Hp (t0 ⊕ C1 n ⊗ dt) (SV n).2) as [_ ->];
        reflexivity. }
    lia.
  - unfold cached_events.
    rewrite (count_calls_concat _ _ _ 1), length_seq; [lia|].
    intros s; simpl. destruct Hp as [Hp|Hp];
      destruct (Hp (t0 ⊕ C0 s ⊗ dt) (SV s).1) as [-> _];
      destruct (Hp (t0 ⊕ C1 s ⊗ dt) (SV s).2) as [_ ->];
      reflexivity.
Qed.

End Cached.


Lemma step_cached_ok (self : SRKDiagonal) (t0 : T) (y0 : list T) (dt : T) (w : world) :
  gt dt #0 = true → ref_ok self t0 y0 dt →
  step_cached self t0 y0 dt w
  = (Ok (t0 ⊕ dt, y1 (locals_pure self t0 y0 dt (rng_pos w))),
     {| rng_pos := rng_after self t0 y0 dt (rng_pos w);
        calls := calls w ++ step_cached_events self t0 y0 dt (rng_pos w) |}).
Proof.
  intros Hdt Hr. unfold step_cached. rewrite Hdt; simpl.
  unfold bind at 1; simpl.
  erewrite bind_ok; [| by apply integrals_ok].
  cbv beta iota.
  erewrite bind_ok; [| apply stages_cached_ok].
  unfold locals_pure, step_cached_events; simpl.
  unfold ret, log; simpl. by rewrite <- !app_assoc.
Qed.

Lemma step_cached_assert (self : SRKDiagonal) (t0 : T) (y0 : list T) (dt : T) (w : world) :
  gt dt #0 = false →
  step_cached self t0 y0 dt w = (Raise AssertionError, w).
Proof. intros Hdt. unfold step_cached. by rewrite Hdt. Qed.

Lemma step_cached_index (self : SRKDiagonal) (t0 dt : T) (w : world) :
  gt dt #0 = true → I_k_pure self t0 [] dt ≠ [] →
  step_cached self t0 [] dt w
  = (Raise IndexError, log [CallBm (t0 ⊕ dt); CallBm t0] w).
Proof.
  intros Hdt Hr. unfold step_cached. rewrite Hdt; simpl.
  unfold bind at 1; simpl.
  erewrite bind_raise; [reflexivity|]. by apply integrals_raise.
Qed.

Lemma step_cached_same (self : SRKDiagonal) (t0 : T) (y0 : list T) (dt : T) (w : world) :
  (step self t0 y0 dt w).1 = (step_cached self t0 y0 dt w).1
  ∧ rng_pos (step self t0 y0 dt w).2 = rng_pos (step_cached self t0 y0 dt w).2.
Proof.
  destruct (gt dt #0) eqn:Hdt.
  - destruct (ref_ok_dec self t0 y0 dt) as [Hr|[-> Hr]].
    + by rewrite step_ok, step_cached_ok.
    + by rewrite step_of_locals, step_locals_index, step_cached_index.
  - by rewrite step_of_locals, step_locals_assert, step_cached_assert.
Qed.

Lemma count_calls_prelude (p : event → bool) (self : SRKDiagonal) (t0 : T)
    (y0 : list T) (dt : T) :
  (∀ t, p (CallBm t) = false) → p CallRandn = false →
  (∀ a b c d, p (CallTrapezoidal a b c d) = false) →
  ∀ es1 es2,
    count_calls p (es1 ++ [CallBm (t0 ⊕ dt); CallBm t0]
                   ++ I_k0_events self t0 y0 dt ++ es2)
    = count_calls p es1 + count_calls p es2.
Proof.
  intros Hb Hr Ht es1 es2. rewrite !count_calls_app; simpl. rewrite !Hb.
  unfold I_k0_events. destruct (trapezoidal_approx self); simpl.
  - by rewrite Ht.
  - by rewrite count_calls_replicate.
Qed.

(** C9: [step] and the variant that evaluates [f] and [g] once per stage
    and reads the kept values back end the same way, with the same result
    and the same generator position, from every world; a run of [step] that
    returns calls each of [f] and [g] [STAGES * (STAGES + 1) / 2] times,
    where the variant calls each [STAGES] times. *)
Theorem step_reevaluates (self : SRKDiagonal) (t0 : T) (y0 : list T) (dt : T)
    (w w' : world) (r : T * list T) :
  step self t0 y0 dt w = (Ok r, w') →
  (∀ w0, (step self t0 y0 dt w0).1 = (step_cached self t0 y0 dt w0).1
         ∧ rng_pos (step self t0 y0 dt w0).2
           = rng_pos (step_cached self t0 y0 dt w0).2)
  ∧ count_calls is_call_f (calls w')
    = count_calls is_call_f (calls w) + STAGES * (STAGES + 1) / 2
  ∧ count_calls is_call_g (calls w')
    = count_calls is_call_g (calls w) + STAGES * (STAGES + 1) / 2
  ∧ count_calls is_call_f (calls (step_cached self t0 y0 dt w).2)
    = count_calls is_call_f (calls w) + STAGES
  ∧ count_calls is_call_g (calls (step_cached self t0 y0 dt w).2)
    = count_calls is_call_g (calls w) + STAGES.
Proof.
  intros E. split; [intros w0; apply step_cached_same|].
  apply step_inv in E as (L & E & _).
  apply step_locals_inv in E as (Hdt & Hr & _ & ->).
  rewrite step_cached_ok by done. cbn [calls snd].
  unfold step_events, step_cached_events.
  rewrite !count_calls_prelude by done.
  set (l := locals_pure self t0 y0 dt (rng_pos w)).
  destruct (count_stages_events self t0 y0 dt (sqrt dt) (I_k l) (I_kk l) (I_k0 l)
              (I_kkk l) is_call_f STAGES) as [Hf Hf']; [by left|].
  destruct (count_stages_events self t0 y0 dt (sqrt dt) (I_k l) (I_kk l) (I_k0 l)
              (I_kkk l) is_call_g STAGES) as [Hg Hg']; [by right|].
  rewrite Hf', Hg'. split_and!; try reflexivity.
  - rewrite <- Hf, (Nat.mul_comm 2), Nat.div_mul by done. reflexivity.
  - rewrite <- Hg, (Nat.mul_comm 2), Nat.div_mul by done. reflexivity.
Qed.


Lemma sum_n_ext (n : nat) (term1 term2 : nat → T) :
  (∀ j, j < n → term1 j = term2 j) → sum_n n term1 = sum_n n term2.
Proof.
  induction n as [|n IH]; intros Ht; simpl; [reflexivity|].
  rewrite IH, Ht by (intros; try apply Ht; lia). reflexivity.
Qed.

Lemma list_eq_tabulate (l : list T) (n : nat) (h : nat → T) :
  length l = n → (∀ b, b < n → nth b l #0 = h b) → l = map h (seq 0 n).
Proof.
  intros Hl Hn. apply (nth_ext _ _ #0 #0).
  - by rewrite length_map, length_seq.
  - intros b Hb. rewrite Hl in Hb. rewrite Hn by done.
    rewrite (nth_indep _ #0 (h 0)) by (rewrite length_map, length_seq; lia).
    rewrite (map_nth h), seq_nth by lia. reflexivity.
Qed.


Section Blocks.
Context `{!AddLaws T}.
Variables (self : SRKDiagonal) (t0 : T) (y0 : list T) (dt : T) (n : nat).
Variables (I_k I_kk I_k0 I_kkk : list T).
Hypothesis Hc : block_contract n self y0.
Hypothesis HI_k : length I_k = n.
Hypothesis HI_kk : length I_kk = n.
Hypothesis HI_k0 : length I_k0 = n.
Hypothesis HI_kkk : length I_kkk = n.

Local Abbreviation SP := (stages_pure self t0 y0 dt (sqrt dt) I_k I_kk I_k0 I_kkk).
Local Abbreviation SV s :=
  (stage_values self t0 y0 dt (sqrt dt) I_k0 (SP s).1.2 (SP s).2 s).

(** The inner loop after [k] passes: partial sums, block by block. *)
Lemma inner_blocks (H0 H1 : list (list T)) (s k : nat) :
  (∀ j, j < k → length (nth j H0 []) = n ∧ length (nth j H1 []) = n) →
  let acc := foldl (inner_pure self t0 dt (sqrt dt) I_k0 H0 H1 s) (y0, y0) (seq 0 k) in
  length acc.1 = n ∧ length acc.2 = n
  ∧ ∀ b, b < n →
      nth b acc.1 #0
      = nth b y0 #0
        ⊕ sum_n k (λ j, A0 s j ⊗ f_at self t0 dt H0 j b ⊗ dt
                        ⊕ B0 s j ⊗ g_at self t0 dt H1 j b ⊗ nth b I_k0 #0 ⊘ dt)
      ∧ nth b acc.2 #0
        = nth b y0 #0
          ⊕ sum_n k (λ j, A1 s j ⊗ f_at self t0 dt H0 j b ⊗ dt
                          ⊕ B1 s j ⊗ g_at self t0 dt H1 j b ⊗ sqrt dt).
Proof.
  induction k as [|k IH]; intros HH; cbv zeta.
  - simpl. rewrite (state_blocks _ _ _ Hc). split_and!; try done.
    intros b _. by rewrite !add_0_r'.
  - rewrite seq_S, foldl_app; cbn [foldl Nat.add].
    destruct IH as (L0 & L1 & IH); [intros; apply HH; lia|].
    set (acc := foldl _ _ (seq 0 k)) in *.
    destruct (HH k) as [Lk0 Lk1]; [lia|].
    pose proof (f_blocks _ _ _ Hc (t0 ⊕ C0 k ⊗ dt) _ Lk0) as Lf.
    pose proof (g_blocks _ _ _ Hc (t0 ⊕ C1 k ⊗ dt) _ Lk1) as Lg.
    unfold inner_pure; cbn [fst snd].
    rewrite length_zip4_with, length_zip3_with.
    split; [lia|]. split; [lia|]. intros b Hb.
    destruct (IH b Hb) as [E0 E1].
    rewrite (nth_zip4_with _ _ _ _ _ _ #0 #0 #0 #0) by lia.
    rewrite (nth_zip3_with _ _ _ _ _ #0 #0 #0) by lia.
    rewrite E0, E1. cbn [sum_n]. unfold f_at, g_at.
    by rewrite !add_assoc'.
Qed.


Lemma stage_values_length (s : nat) :
  length (SV s).1 = n ∧ length (SV s).2 = n.
Proof.
  induction s as [s IH] using lt_wf_ind.
  destruct (inner_blocks (SP s).1.2 (SP s).2 s s) as (L0 & L1 & _); [|done].
  intros j Hj.
  destruct (nth_stages_pure self t0 y0 dt (sqrt dt) I_k I_kk I_k0 I_kkk j s Hj)
    as [-> ->].
  by apply IH.
Qed.

Lemma nth_stages_length (s N : nat) :
  s < N → length (nth s (SP N).1.2 []) = n ∧ length (nth s (SP N).2 []) = n.
Proof.
  intros Hs.
  destruct (nth_stages_pure self t0 y0 dt (sqrt dt) I_k I_kk I_k0 I_kkk s N Hs)
    as [-> ->].
  apply stage_values_length.
Qed.

(** Stage [s], block by block, from the stages before it. *)
Lemma stage_values_blocks (s b : nat) :
  b < n →
  nth b (SV s).1 #0 = H0_block self t0 y0 dt I_k0 (SP s).1.2 (SP s).2 s b
  ∧ nth b (SV s).2 #0 = H1_block self t0 y0 dt (SP s).1.2 (SP s).2 s b.
Proof.
  intros Hb.
  destruct (inner_blocks (SP s).1.2 (SP s).2 s s) as (_ & _ & E).
  - intros j Hj. by apply nth_stages_length.
  - by apply E.
Qed.

Lemma nth_g_weight (s b : nat) :
  b < n →
  nth b (g_weight dt (sqrt dt) I_k I_kk I_k0 I_kkk s) #0
  = g_weight_block dt I_k I_kk I_k0 I_kkk s b.
Proof.
  intros Hb. unfold g_weight.
  by rewrite (nth_zip4_with _ _ _ _ _ _ #0 #0 #0 #0) by lia.
Qed.

(** [y1] after [m] stages, block by block. *)
Lemma y1_blocks (m N : nat) :
  m ≤ N →
  length (SP m).1.1 = n
  ∧ ∀ b, b < n →
      nth b (SP m).1.1 #0
      = nth b y0 #0
        ⊕ sum_n m (λ s,
              alpha s ⊗ f_at self t0 dt (SP N).1.2 s b ⊗ dt
              ⊕ g_weight_block dt I_k I_kk I_k0 I_kkk s b
                ⊗ g_at self t0 dt (SP N).2 s b).
Proof.
  induction m as [|m IH]; intros Hm.
  - simpl. split; [apply (state_blocks _ _ _ Hc)|].
    intros b _. by rewrite add_0_r'.
  - destruct IH as [Ly IH]; [lia|].
    destruct (stage_values_length m) as [L0 L1].
    pose proof (f_blocks _ _ _ Hc (t0 ⊕ C0 m ⊗ dt) _ L0) as Lf.
    pose proof (g_blocks _ _ _ Hc (t0 ⊕ C1 m ⊗ dt) _ L1) as Lg.
    assert (length (g_weight dt (sqrt dt) I_k I_kk I_k0 I_kkk m) = n) as Lw.
    { unfold g_weight. rewrite length_zip4_with. lia. }
    rewrite stages_pure_S; cbn [fst snd].
    split; [rewrite length_zip4_with; lia|].
    intros b Hb.
    rewrite (nth_zip4_with _ _ _ _ _ _ #0 #0 #0 #0) by lia.
    rewrite IH, nth_g_weight by done. cbn [sum_n]. unfold f_at, g_at.
    destruct (nth_stages_pure self t0 y0 dt (sqrt dt) I_k I_kk I_k0 I_kkk m N)
      as [-> ->]; [lia|].
    by rewrite !add_assoc'.
Qed.

End Blocks.


Lemma locals_pure_stages (self : SRKDiagonal) (t0 : T) (y0 : list T) (dt : T)
    (p : nat) :
  let L := locals_pure self t0 y0 dt p in
  let st := stages_pure self t0 y0 dt (sqrt dt) (I_k L) (I_kk L) (I_k0 L)
              (I_kkk L) STAGES in
  y1 L = st.1.1 ∧ H0 L = st.1.2 ∧ H1 L = st.2.
Proof. done. Qed.

Lemma contract_ref_ok (n : nat) (self : SRKDiagonal) (t0 : T) (y0 : list T) (dt : T) :
  block_contract n self y0 → ref_ok self t0 y0 dt.
Proof.
  intros Hc E. pose proof (state_blocks _ _ _ Hc) as Ly.
  pose proof (bm_blocks _ _ _ Hc t0) as Lb. subst y0; simpl in Ly.
  unfold I_k_pure. destruct (bm self t0); [| simpl in *; lia].
  by destruct (bm self (t0 ⊕ dt)).
Qed.

Lemma contract_integrals (n : nat) (self : SRKDiagonal) (t0 : T) (y0 : list T)
    (dt : T) (p : nat) :
  block_contract n self y0 →
  let L := locals_pure self t0 y0 dt p in
  length (I_k L) = n ∧ length (I_kk L) = n ∧ length (I_k0 L) = n
  ∧ length (I_kkk L) = n.
Proof.
  intros Hc. cbv zeta. unfold locals_pure; cbn [I_k I_kk I_k0 I_kkk].
  assert (length (I_k_pure self t0 y0 dt) = n) as Lk.
  { unfold I_k_pure. rewrite length_zip_with, !(bm_blocks _ _ _ Hc). lia. }
  rewrite !length_map. split_and!; try done.
  unfold I_k0_pure. destruct (trapezoidal_approx self).
  - apply (trapezoidal_blocks _ _ _ Hc).
  - unfold gaussian_I_k0. by rewrite length_imap.
Qed.

(** C1: under the block contract, for every [dt > 0], [step] returns
    [(t1, y1)] with [t1 = t0 + dt] and, for every block [b],
    [y1[b] = y0[b] + sum over the stages s of
       alpha[s] * f(t0 + C0[s] dt, H0[s])[b] * dt
       + g_weight[s][b] * g(t0 + C1[s] dt, H1[s])[b]],
    where [g_weight[s] = beta1[s] I_k + beta2[s] I_kk / sqrt(dt)
       + beta3[s] I_k0 / dt + beta4[s] I_kkk / dt] (see [y1_block],
    [g_weight_block]). *)
Theorem step_closed_form `{!AddLaws T} (n : nat) (self : SRKDiagonal)
    (t0 : T) (y0 : list T) (dt : T) (w : world) :
  block_contract n self y0 → gt dt #0 = true →
  ∃ L w',
    step_locals self t0 y0 dt w = (Ok L, w')
    ∧ step self t0 y0 dt w = (Ok (t0 ⊕ dt, y1 L), w')
    ∧ length (y1 L) = n
    ∧ ∀ b, b < n → nth b (y1 L) #0 = y1_block self t0 y0 dt L b.
Proof.
  intros Hc Hdt. pose proof (contract_ref_ok n self t0 y0 dt Hc) as Hr.
  eexists _, _. split; [by apply step_locals_ok|].
  split; [by apply step_ok|].
  destruct (contract_integrals n self t0 y0 dt (rng_pos w) Hc)
    as (Lk & Lkk & Lk0 & Lkkk).
  unfold y1_block.
  apply (y1_blocks self t0 y0 dt n _ _ _ _ Hc Lk Lkk Lk0 Lkkk
           STAGES STAGES).
  lia.
Qed.

(** C2: under the block contract, for every [dt > 0] and every stage [s],
    for every block [b],
    [H0[s][b] = y0[b] + sum over j < s of
       A0[s][j] * f(t0 + C0[j] dt, H0[j])[b] * dt
       + B0[s][j] * g(t0 + C1[j] dt, H1[j])[b] * I_k0[b] / dt] and
    [H1[s][b] = y0[b] + sum over j < s of
       A1[s][j] * f(t0 + C0[j] dt, H0[j])[b] * dt
       + B1[s][j] * g(t0 + C1[j] dt, H1[j])[b] * sqrt(dt)];
    the right-hand sides are functions of the stages before [s] only
    ([take s]). *)
Theorem step_stage_values `{!AddLaws T} (n : nat) (self : SRKDiagonal)
    (t0 : T) (y0 : list T) (dt : T) (w : world) :
  block_contract n self y0 → gt dt #0 = true →
  ∃ L w',
    step_locals self t0 y0 dt w = (Ok L, w')
    ∧ length (H0 L) = STAGES ∧ length (H1 L) = STAGES
    ∧ ∀ s, s < STAGES →
        length (nth s (H0 L) []) = n ∧ length (nth s (H1 L) []) = n
        ∧ ∀ b, b < n →
            nth b (nth s (H0 L) []) #0
            = H0_block self t0 y0 dt (I_k0 L) (take s (H0 L)) (take s (H1 L)) s b
            ∧ nth b (nth s (H1 L) []) #0
              = H1_block self t0 y0 dt (take s (H0 L)) (take s (H1 L)) s b.
Proof.
  intros Hc Hdt. pose proof (contract_ref_ok n self t0 y0 dt Hc) as Hr.
  eexists _, _. split; [by apply step_locals_ok|].
  destruct (contract_integrals n self t0 y0 dt (rng_pos w) Hc)
    as (Lk & Lkk & Lk0 & Lkkk).
  set (L := locals_pure self t0 y0 dt (rng_pos w)) in *.
  destruct (stages_pure_length self t0 y0 dt (sqrt dt) (I_k L) (I_kk L) (I_k0 L)
              (I_kkk L) STAGES) as [LH0 LH1].
  split; [apply LH0|]. split; [apply LH1|]. intros s Hs.
  destruct (nth_stages_pure self t0 y0 dt (sqrt dt) (I_k L) (I_kk L) (I_k0 L)
              (I_kkk L) s STAGES Hs) as [E0 E1].
  destruct (take_stages_pure self t0 y0 dt (sqrt dt) (I_k L) (I_kk L) (I_k0 L)
              (I_kkk L) s STAGES) as [T0 T1]; [lia|].
  destruct (locals_pure_stages self t0 y0 dt (rng_pos w)) as (_ & EH0 & EH1).
  fold L in EH0, EH1. rewrite EH0, EH1, E0, E1, T0, T1.
  destruct (stage_values_length self t0 y0 dt n (I_k L) (I_kk L) (I_k0 L)
              (I_kkk L) Hc Lk Lkk Lk0 Lkkk s) as [L0 L1].
  split; [done|]. split; [done|]. intros b Hb.
  by apply (stage_values_blocks self t0 y0 dt n (I_k L) (I_kk L) (I_k0 L)
              (I_kkk L) Hc Lk Lkk Lk0 Lkkk).
Qed.


(** ** Zero diffusion *)

Section ZeroDiffusion.
Context `{!AddLaws T} `{!ZeroLaws T}.
Variables (self : SRKDiagonal) (t0 : T) (y0 : list T) (dt : T) (n : nat).
Variables (I_k I_kk I_k0 I_kkk : list T).
Hypothesis Hc : block_contract n self y0.
Hypothesis HI_k : length I_k = n.
Hypothesis HI_kk : length I_kk = n.
Hypothesis HI_k0 : length I_k0 = n.
Hypothesis HI_kkk : length I_kkk = n.
Hypothesis Hg0 : ∀ t y, Forall (λ x, x = #0) (g (sde self) t y).

Local Abbreviation SP := (stages_pure self t0 y0 dt (sqrt dt) I_k I_kk I_k0 I_kkk).
Local Abbreviation SV s :=
  (stage_values self t0 y0 dt (sqrt dt) I_k0 (SP s).1.2 (SP s).2 s).

Lemma g_at_zero (Hs : list (list T)) (s b : nat) :
  g_at self t0 dt Hs s b = #0.
Proof.
  unfold g_at. generalize (Hg0 (t0 ⊕ C1 s ⊗ dt) (nth s Hs [])).
  generalize (g (sde self) (t0 ⊕ C1 s ⊗ dt) (nth s Hs [])).
  intros l Hl. revert b. induction Hl as [|x l -> _ IH]; intros [|b]; simpl; auto.
Qed.

Lemma zero_stages (m : nat) :
  (SP m).1.2 = rk_stages (f (sde self)) t0 y0 dt m.
Proof.
  induction m as [|m IH]; [reflexivity|].
  rewrite stages_pure_S; cbn [fst snd rk_stages]. rewrite <- IH. f_equal. f_equal.
  rewrite (state_blocks _ _ _ Hc).
  apply list_eq_tabulate.
  - apply (stage_values_length self t0 y0 dt n I_k I_kk I_k0 I_kkk
             Hc HI_k HI_kk HI_k0 HI_kkk m).
  - intros b Hb.
    destruct (stage_values_blocks self t0 y0 dt n I_k I_kk I_k0 I_kkk
                Hc HI_k HI_kk HI_k0 HI_kkk m b Hb) as [-> _].
    unfold H0_block. f_equal. apply sum_n_ext. intros j _.
    rewrite g_at_zero, mul_0_r', mul_0_l', div_0_l', add_0_r'. reflexivity.
Qed.

Lemma zero_y1 :
  (SP STAGES).1.1 = rk_update (f (sde self)) t0 y0 dt.
Proof.
  unfold rk_update. rewrite (state_blocks _ _ _ Hc).
  destruct (y1_blocks self t0 y0 dt n I_k I_kk I_k0 I_kkk
              Hc HI_k HI_kk HI_k0 HI_kkk STAGES STAGES)
    as [Ly Ey]; [lia|].
  apply list_eq_tabulate; [done|]. intros b Hb. rewrite Ey by done.
  f_equal. apply sum_n_ext. intros s _.
  rewrite g_at_zero, mul_0_r', add_0_r'. unfold f_at.
  by rewrite zero_stages.
Qed.

End ZeroDiffusion.

(** C6: when [g] is zero in every block at every time and state, under the
    block contract and for every [dt > 0], [step] returns [t0 + dt] and the
    explicit Runge-Kutta update of [f] alone:
    [y1[b] = y0[b] + sum over the stages s of
       alpha[s] * f(t0 + C0[s] dt, H0[s])[b] * dt], with
    [H0[s][b] = y0[b] + sum over j < s of
       A0[s][j] * f(t0 + C0[j] dt, H0[j])[b] * dt]
    ([rk_update], [rk_stages]).  Neither takes the Brownian path, the
    generator or the trapezoidal helper: the result is the same for all of
    them. *)
Theorem step_zero_diffusion `{!AddLaws T} `{!ZeroLaws T} (n : nat) (self : SRKDiagonal)
    (t0 : T) (y0 : list T) (dt : T) (w : world) :
  block_contract n self y0 →
  (∀ t y, Forall (λ x, x = #0) (g (sde self) t y)) →
  gt dt #0 = true →
  ∃ L w',
    step_locals self t0 y0 dt w = (Ok L, w')
    ∧ step self t0 y0 dt w
      = (Ok (t0 ⊕ dt, rk_update (f (sde self)) t0 y0 dt), w')
    ∧ H0 L = rk_stages (f (sde self)) t0 y0 dt STAGES.
Proof.
  intros Hc Hg0 Hdt. pose proof (contract_ref_ok n self t0 y0 dt Hc) as Hr.
  eexists _, _. split; [by apply step_locals_ok|].
  destruct (contract_integrals n self t0 y0 dt (rng_pos w) Hc)
    as (Lk & Lkk & Lk0 & Lkkk).
  destruct (locals_pure_stages self t0 y0 dt (rng_pos w)) as (Ey & EH0 & _).
  rewrite step_ok, Ey, EH0 by done.
  split.
  - by rewrite (zero_y1 self t0 y0 dt n _ _ _ _ Hc Lk Lkk Lk0 Lkkk Hg0).
  - by apply (zero_stages self t0 y0 dt n _ _ _ _ Hc Lk Lkk Lk0 Lkkk Hg0).
Qed.

(** * Further properties of [step] and [__init__] *)

(** ** The empty state *)

Lemma zip_with_nil_inv {A B C} (h : A → B → C) (l : list A) (k : list B) :
  zip_with h l k = [] ↔ l = [] ∨ k = [].
Proof.
  destruct l as [|a l], k as [|b k]; simpl; split; intros E;
    try discriminate; auto.
  destruct E; discriminate.
Qed.

(** X1: the empty state.  With [dt > 0], a state with no block and a
    Brownian path that has a block at [t0 + dt] and at [t0], [step] raises
    [IndexError] at [y0[0]]: after its two calls to the path, before the
    trapezoidal helper, the generator, the drift or the diffusion is
    called, and in either mode. *)
Theorem step_empty_state (self : SRKDiagonal) (t0 dt : T) (w : world) :
  gt dt #0 = true →
  bm self (t0 ⊕ dt) ≠ [] → bm self t0 ≠ [] →
  step self t0 [] dt w
  = (Raise IndexError, log [CallBm (t0 ⊕ dt); CallBm t0] w).
Proof.
  intros Hdt Hn Hc. rewrite step_of_locals, step_locals_index; [done..|].
  unfold I_k_pure. intros E. apply zip_with_nil_inv in E. by destruct E.
Qed.

(** ** The order of the calls *)

Lemma stages_events_drift_diffusion (self : SRKDiagonal) (t0 : T) (y0 : list T)
    (dt sqrt_dt : T) (I_k I_kk I_k0 I_kkk : list T) (n : nat) :
  Forall (λ e, is_call_f e || is_call_g e = true)
    (stages_events self t0 y0 dt sqrt_dt I_k I_kk I_k0 I_kkk n).
Proof.
  induction n as [|n IH]; [constructor|].
  cbn [stages_events]. apply Forall_app. split; [done|].
  unfold stage_events. apply Forall_app. split.
  - generalize (seq 0 n). intros l. induction l as [|j l IHl]; simpl.
    + constructor.
    + by repeat constructor.
  - by repeat constructor.
Qed.

(** X2: a run of [step] that returns calls, in this order: the Brownian path
    at [t0 + dt] and then at [t0]; then either the trapezoidal helper once,
    on [(t0, y0, dt, sqrt(dt))], or the generator once per block of [I_k],
    by the mode; and from then on the drift and the diffusion only. *)
Theorem step_call_sequence (self : SRKDiagonal) (t0 : T) (y0 : list T) (dt : T)
    (w w' : world) (L : locals) :
  step_locals self t0 y0 dt w = (Ok L, w') →
  ∃ rest,
    calls w'
    = calls w ++ [CallBm (t0 ⊕ dt); CallBm t0]
      ++ (if trapezoidal_approx self
          then [CallTrapezoidal t0 y0 dt (sqrt dt)]
          else replicate (length (I_k L)) CallRandn)
      ++ rest
    ∧ Forall (λ e, is_call_f e || is_call_g e = true) rest.
Proof.
  intros E. apply step_locals_inv in E as (_ & _ & -> & ->).
  eexists. split; [reflexivity|]. apply stages_events_drift_diffusion.
Qed.

(** ** The options *)

(** [step] reads the SDE, the Brownian path and the flag of the solver
    object, nothing else. *)
Lemma step_fields (self1 self2 : SRKDiagonal) (t0 : T) (y0 : list T) (dt : T)
    (w : world) :
  sde self1 = sde self2 → bm self1 = bm self2 →
  trapezoidal_approx self1 = trapezoidal_approx self2 →
  step self1 t0 y0 dt w = step self2 t0 y0 dt w.
Proof.
  destruct self1 as [[s1 b1 o1] f1], self2 as [[s2 b2 o2] f2]; simpl.
  intros -> -> ->. reflexivity.
Qed.

(** X3: keys other than [trapezoidal_approx] are ignored: adding, changing
    or removing one changes neither the flag that [__init__] sets nor what
    [step] does. *)
Theorem init_other_keys (sde : SDE) (bm : T → list T)
    (options : gmap string pyval) (k : string) (v : pyval)
    (t0 : T) (y0 : list T) (dt : T) (w : world) :
  k ≠ "trapezoidal_approx" →
  trapezoidal_approx (init sde bm (<[k:=v]> options))
  = trapezoidal_approx (init sde bm options)
  ∧ trapezoidal_approx (init sde bm (delete k options))
    = trapezoidal_approx (init sde bm options)
  ∧ step (init sde bm (<[k:=v]> options)) t0 y0 dt w
    = step (init sde bm options) t0 y0 dt w
  ∧ step (init sde bm (delete k options)) t0 y0 dt w
    = step (init sde bm options) t0 y0 dt w.
Proof.
  intros Hk.
  assert (trapezoidal_approx (init sde bm (<[k:=v]> options))
          = trapezoidal_approx (init sde bm options)) as E1.
  { unfold init; simpl. by rewrite lookup_insert_ne. }
  assert (trapezoidal_approx (init sde bm (delete k options))
          = trapezoidal_approx (init sde bm options)) as E2.
  { unfold init; simpl. by rewrite lookup_delete_ne. }
  split_and!; try done; by apply step_fields.
Qed.

(** X4: the mode is fixed when the solver is built: [step] reads the flag
    and never the options, so a solver whose options are replaced after
    [__init__] steps as before. *)
Theorem step_ignores_options (self : SRKDiagonal) (options' : gmap string pyval)
    (t0 : T) (y0 : list T) (dt : T) (w : world) :
  step {| base := {| sde := sde self; bm := bm self; options := options' |};
          trapezoidal_approx := trapezoidal_approx self |} t0 y0 dt w
  = step self t0 y0 dt w.
Proof. by apply step_fields. Qed.

(** ** The stage lists *)

(** X5: in a run of [step] that returns, whatever the block counts, [H0] and
    [H1] hold one entry per stage; the first stage is the state itself,
    [H0[0] = H1[0] = y0] (its inner loop is empty); and with no stage at all
    [y1] is [y0]. *)
Theorem step_first_stage (self : SRKDiagonal) (t0 : T) (y0 : list T) (dt : T)
    (w w' : world) (L : locals) :
  step_locals self t0 y0 dt w = (Ok L, w') →
  length (H0 L) = STAGES ∧ length (H1 L) = STAGES
  ∧ (0 < STAGES → nth 0 (H0 L) [] = y0 ∧ nth 0 (H1 L) [] = y0)
  ∧ (STAGES = 0 → y1 L = y0).
Proof.
  intros E. apply step_locals_inv in E as (_ & _ & -> & _).
  set (L := locals_pure self t0 y0 dt (rng_pos w)).
  destruct (locals_pure_stages self t0 y0 dt (rng_pos w)) as (Ey & E0 & E1).
  fold L in Ey, E0, E1. rewrite Ey, E0, E1.
  destruct (stages_pure_length self t0 y0 dt (sqrt dt) (I_k L) (I_kk L) (I_k0 L)
              (I_kkk L) STAGES) as [L0 L1].
  split_and!; try done.
  - intros Hs.
    by destruct (nth_stages_pure self t0 y0 dt (sqrt dt) (I_k L) (I_kk L)
                   (I_k0 L) (I_kkk L) 0 STAGES Hs) as [-> ->].
  - by intros ->.
Qed.

End Proofs.

(** ** The entries of the tableau that [step] reads *)

Section TableauEntries.
Context {T : Type} {num : Numeric T} {ext : Externals T}.
Variables tab1 tab2 : Tableau T.
Hypothesis Hsame : same_entries_read tab1 tab2.
Variables (self : SRKDiagonal (T := T)) (t0 : T) (y0 : list T) (dt sqrt_dt : T).
Variables (I_k I_kk I_k0 I_kkk : list T).

Lemma inner_pure_same (H0 H1 : list (list T)) (s j : nat)
    (acc : list T * list T) :
  s < STAGES (Tableau := tab1) → j < s →
  inner_pure (tab := tab1) self t0 dt sqrt_dt I_k0 H0 H1 s acc j
  = inner_pure (tab := tab2) self t0 dt sqrt_dt I_k0 H0 H1 s acc j.
Proof.
  intros Hs Hj. destruct Hsame as [_ Hr]. unfold inner_pure.
  destruct (Hr s Hs) as (_ & _ & _ & _ & _ & _ & _ & Hm).
  destruct (Hm j Hj) as (-> & -> & -> & ->).
  destruct (Hr j) as (-> & -> & _); [lia|]. reflexivity.
Qed.

Lemma stage_values_same (H0 H1 : list (list T)) (s : nat) :
  s < STAGES (Tableau := tab1) →
  stage_values (tab := tab1) self t0 y0 dt sqrt_dt I_k0 H0 H1 s
  = stage_values (tab := tab2) self t0 y0 dt sqrt_dt I_k0 H0 H1 s.
Proof.
  intros Hs. unfold stage_values. apply foldl_ext_in.
  intros acc j Hj. apply elem_of_seq in Hj. apply inner_pure_same; lia.
Qed.

Lemma stage_pure_same (st : list T * list (list T) * list (list T)) (s : nat) :
  s < STAGES (Tableau := tab1) →
  stage_pure (tab := tab1) self t0 y0 dt sqrt_dt I_k I_kk I_k0 I_kkk st s
  = stage_pure (tab := tab2) self t0 y0 dt sqrt_dt I_k I_kk I_k0 I_kkk st s
  ∧ stage_events (tab := tab1) self t0 y0 dt sqrt_dt I_k0 st s
    = stage_events (tab := tab2) self t0 y0 dt sqrt_dt I_k0 st s.
Proof.
  intros Hs. unfold stage_pure, stage_events, g_weight.
  rewrite (stage_values_same _ _ s Hs).
  destruct Hsame as [_ Hr].
  destruct (Hr s Hs) as (-> & -> & -> & -> & -> & -> & -> & _).
  split; [reflexivity|]. f_equal. f_equal.
  apply map_ext_in. intros j Hj. apply in_seq in Hj. unfold inner_events.
  destruct (Hr j) as (-> & -> & _); [lia|]. reflexivity.
Qed.

Lemma stages_pure_same (n : nat) :
  n ≤ STAGES (Tableau := tab1) →
  stages_pure (tab := tab1) self t0 y0 dt sqrt_dt I_k I_kk I_k0 I_kkk n
  = stages_pure (tab := tab2) self t0 y0 dt sqrt_dt I_k I_kk I_k0 I_kkk n
  ∧ stages_events (tab := tab1) self t0 y0 dt sqrt_dt I_k I_kk I_k0 I_kkk n
    = stages_events (tab := tab2) self t0 y0 dt sqrt_dt I_k I_kk I_k0 I_kkk n.
Proof.
  induction n as [|n IH]; intros Hn; [done|].
  destruct IH as [E1 E2]; [lia|]. cbn [stages_pure stages_events].
  rewrite E1, E2.
  by destruct (stage_pure_same
       (stages_pure (tab := tab2) self t0 y0 dt sqrt_dt I_k I_kk I_k0 I_kkk n) n)
    as [-> ->]; [lia|].
Qed.

End TableauEntries.

(** X7: [step] reads the tableau's vectors at the stages [s < STAGES] and
    its matrices at [j < s < STAGES] only: with two tableaus that agree
    there, whatever their entries on and above the diagonals or beyond the
    last stage, [step] ends the same way, with the same result and the same
    calls. *)
Theorem step_entries_read {T : Type} {num : Numeric T} {ext : Externals T}
    (tab1 tab2 : Tableau T) (self : SRKDiagonal) (t0 : T) (y0 : list T)
    (dt : T) (w : world) :
  same_entries_read tab1 tab2 →
  step (tab := tab1) self t0 y0 dt w = step (tab := tab2) self t0 y0 dt w.
Proof.
  intros Hsame. destruct (gt dt #0) eqn:Hdt.
  - destruct (ref_ok_dec self t0 y0 dt) as [Hr|[-> Hr]].
    + rewrite !step_ok by done.
      unfold step_events, locals_pure; cbn [y1 I_k I_kk I_k0 I_kkk].
      pose proof Hsame as [HS _].
      destruct (stages_pure_same tab1 tab2 Hsame self t0 y0 dt (sqrt dt)
                     (I_k_pure self t0 y0 dt)
                     (map (λ d, (d ^^ 2 ⊖ dt) ⊘ #2) (I_k_pure self t0 y0 dt))
                     (I_k0_pure self t0 y0 dt (rng_pos w))
                     (map (λ d, (d ^^ 3 ⊖ #3 ⊗ dt ⊗ d) ⊘ #6) (I_k_pure self t0 y0 dt))
                     (STAGES (Tableau := tab1)))
        as [E1 E2]; [lia|].
      by rewrite <- HS, E1, E2.
    + by rewrite !step_of_locals, !step_locals_index.
  - by rewrite !step_of_locals, !step_locals_assert.
Qed.

(** * Runs on the integer backend

    The theorems applied to the data of the first part. *)

#[local] Existing Instance ex_tab.
#[local] Existing Instance ex_externals.

Lemma ex_contract (sde : SDE) (options : gmap string pyval) :
  (∀ t y, length (f sde t y) = length y) →
  (∀ t y, length (g sde t y) = length y) →
  block_contract 2 (init sde ex_bm options) [10; 20]%Z.
Proof.
  intros Hf Hg. split; simpl; try done.
  - intros t y <-. apply Hf.
  - intros t y <-. apply Hg.
Qed.

Lemma ex_sde_blocks :
  (∀ t y, length (f ex_sde t y) = length y)
  ∧ (∀ t y, length (g ex_sde t y) = length y)
  ∧ (∀ t y, length (f ex_sde_zero t y) = length y)
  ∧ (∀ t y, length (g ex_sde_zero t y) = length y).
Proof. split_and!; intros t y; simpl; apply length_map. Qed.

Lemma ex_sde_zero_g (t : Z) (y : list Z) :
  Forall (λ x, x = #0) (g ex_sde_zero t y).
Proof. simpl. induction y as [|x y IH]; simpl; by constructor. Qed.

(** A run with [dt > 0] from a state with a block. *)
Ltac run_step := apply step_locals_ok; [reflexivity | intros E; discriminate E].

Lemma step_closed_form_witness :
  ∃ L w',
    step_locals (init ex_sde ex_bm ∅)
      0%Z [10; 20]%Z 4%Z ex_world = (Ok L, w')
    ∧ step (init ex_sde ex_bm ∅)
        0%Z [10; 20]%Z 4%Z ex_world = (Ok (0%Z ⊕ 4%Z, y1 L), w')
    ∧ length (y1 L) = 2
    ∧ ∀ b, b < 2 →
        nth b (y1 L) #0
        = y1_block (init ex_sde ex_bm ∅) 0%Z [10; 20]%Z 4%Z L b.
Proof.
  refine (step_closed_form 2
            (init ex_sde ex_bm ∅) 0%Z [10; 20]%Z 4%Z ex_world _ _).
  - apply ex_contract; apply ex_sde_blocks.
  - reflexivity.
Defined.

Lemma step_stage_values_witness :
  ∃ L w',
    step_locals (init ex_sde ex_bm ex_gaussian)
      0%Z [10; 20]%Z 4%Z ex_world = (Ok L, w')
    ∧ length (H0 L) = 3 ∧ length (H1 L) = 3
    ∧ ∀ s, s < 3 →
        length (nth s (H0 L) []) = 2 ∧ length (nth s (H1 L) []) = 2
        ∧ ∀ b, b < 2 →
            nth b (nth s (H0 L) []) #0
            = H0_block (init ex_sde ex_bm ex_gaussian) 0%Z [10; 20]%Z 4%Z
                (I_k0 L) (take s (H0 L)) (take s (H1 L)) s b
            ∧ nth b (nth s (H1 L) []) #0
              = H1_block (init ex_sde ex_bm ex_gaussian) 0%Z [10; 20]%Z 4%Z
                  (take s (H0 L)) (take s (H1 L)) s b.
Proof.
  refine (step_stage_values 2
            (init ex_sde ex_bm ex_gaussian) 0%Z [10; 20]%Z 4%Z ex_world _ _).
  - apply ex_contract; apply ex_sde_blocks.
  - reflexivity.
Defined.

Lemma step_derived_integrals_witness :
  ∃ L w',
    step_locals (init ex_sde ex_bm ∅) 1%Z [10; 20]%Z 4%Z ex_world = (Ok L, w')
    ∧ I_k L = [4; 8]%Z ∧ I_kk L = [6; 30]%Z ∧ I_kkk L = [2; 69]%Z
    ∧ gt 4%Z #0 = true
    ∧ I_k L = zip_with (λ bm_next bm_cur, to (bm_next ⊖ bm_cur) 10%Z)
                (ex_bm (1%Z ⊕ 4%Z)) (ex_bm 1%Z)
    ∧ ((∀ x ref : Z, to x ref = x) →
       I_k L = zip_with (λ bm_next bm_cur, bm_next ⊖ bm_cur)
                 (ex_bm (1%Z ⊕ 4%Z)) (ex_bm 1%Z))
    ∧ I_kk L = map (λ I_k_, (I_k_ ^^ 2 ⊖ 4%Z) ⊘ #2) (I_k L)
    ∧ I_kkk L = map (λ I_k_, (I_k_ ^^ 3 ⊖ #3 ⊗ 4%Z ⊗ I_k_) ⊘ #6) (I_k L).
Proof.
  eexists _, _. split; [run_step|].
  split; [reflexivity|]. split; [reflexivity|]. split; [reflexivity|].
  refine (step_derived_integrals (init ex_sde ex_bm ∅) 1%Z [10; 20]%Z 4%Z
            ex_world _ _ _).
  run_step.
Defined.

(** C3 as stated fails where the dtypes differ: with a narrow state and a
    wide path whose first block grows by [2^24 + 1], the first block of
    [I_k] is [2^24], the increment moved to the state's dtype. *)
Lemma step_derived_integrals_cast :
  ∃ L w',
    step_locals (tab := ex_dtab) (ext := ex_dexternals)
      (init ex_dsde ex_dbm ∅) #0 ex_dstate #1 ex_dworld = (Ok L, w')
    ∧ val <$> I_k L = [16777216; 6]%Z
    ∧ val <$> zip_with (λ bm_next bm_cur, bm_next ⊖ bm_cur)
                (ex_dbm (#0 ⊕ #1)) (ex_dbm #0)
      = [16777217; 6]%Z.
Proof.
  eexists _, _. split; [run_step|]. split; vm_compute; reflexivity.
Qed.

Lemma step_I_k0_mode_witness :
  ∃ L w',
    step_locals (init ex_sde ex_bm ex_gaussian)
      1%Z [10; 20]%Z 4%Z ex_world' = (Ok L, w')
    ∧ I_k0 L = [40; 52]%Z
    ∧ trapezoidal_approx (init ex_sde ex_bm ex_gaussian) = false
    ∧ I_k0 L = imap (λ i I_k_,
                 4%Z ⊘ #2 ⊗ (I_k_ ⊕ randn (5 + i) ⊗ sqrt 4%Z ⊘ sqrt #3))
               (I_k L)
    ∧ rng_pos w' = 5 + length (I_k L).
Proof.
  eexists _, _. split; [run_step|]. split; [reflexivity|].
  eapply (step_I_k0_mode ex_sde ex_bm ex_gaussian
            1%Z [10; 20]%Z 4%Z ex_world').
  run_step.
Defined.

Lemma step_nonpositive_dt_witness :
  step (init ex_sde ex_bm ∅)
    1%Z [10; 20]%Z 0%Z ex_world' = (Raise AssertionError, ex_world')
  ∧ step (init ex_sde ex_bm ex_gaussian)
      1%Z [10; 20]%Z (-3)%Z ex_world' = (Raise AssertionError, ex_world').
Proof.
  split.
  - apply (step_nonpositive_dt). by left.
  - apply (step_nonpositive_dt). by right.
Defined.

Lemma step_zero_diffusion_witness :
  ∃ L w',
    step_locals (init ex_sde_zero ex_bm ex_gaussian)
      0%Z [10; 20]%Z 4%Z ex_world = (Ok L, w')
    ∧ step (init ex_sde_zero ex_bm ex_gaussian)
        0%Z [10; 20]%Z 4%Z ex_world
      = (Ok (0%Z ⊕ 4%Z, rk_update (f ex_sde_zero) 0%Z [10; 20]%Z 4%Z), w')
    ∧ H0 L = rk_stages (f ex_sde_zero) 0%Z [10; 20]%Z 4%Z 3.
Proof.
  refine (step_zero_diffusion 2
            (init ex_sde_zero ex_bm ex_gaussian) 0%Z [10; 20]%Z 4%Z ex_world _ _ _).
  - apply ex_contract; apply ex_sde_blocks.
  - apply ex_sde_zero_g.
  - reflexivity.
Defined.

Lemma step_reproducible_witness :
  (step_locals (init ex_sde ex_bm ∅)
     0%Z [10; 20]%Z 4%Z ex_world).1
  = (step_locals (init ex_sde ex_bm ∅)
       0%Z [10; 20]%Z 4%Z ex_world').1
  ∧ (step (init ex_sde ex_bm ∅)
       0%Z [10; 20]%Z 4%Z ex_world).1
    = (step (init ex_sde ex_bm ∅)
         0%Z [10; 20]%Z 4%Z ex_world').1.
Proof.
  apply (step_reproducible
           (init ex_sde ex_bm ∅) 0%Z [10; 20]%Z 4%Z ex_world ex_world').
  reflexivity.
Defined.

(** Without the trapezoidal approximation the two runs differ. *)
Example step_gaussian_differs :
  (step (init ex_sde ex_bm ex_gaussian)
     0%Z [10; 20]%Z 4%Z ex_world).1
  = Ok (4%Z, [232578; 947628]%Z)
  ∧ (step (init ex_sde ex_bm ex_gaussian)
       0%Z [10; 20]%Z 4%Z ex_world').1
    = Ok (4%Z, [453608; 1492118]%Z).
Proof. split; vm_compute; reflexivity. Qed.

Lemma step_reevaluates_witness :
  ∃ r w',
    step (init ex_sde ex_bm ∅) 0%Z [10; 20]%Z 4%Z ex_world' = (Ok r, w')
    ∧ (∀ w0, (step (init ex_sde ex_bm ∅) 0%Z [10; 20]%Z 4%Z w0).1
             = (step_cached (init ex_sde ex_bm ∅) 0%Z [10; 20]%Z 4%Z w0).1
             ∧ rng_pos (step (init ex_sde ex_bm ∅) 0%Z [10; 20]%Z 4%Z w0).2
               = rng_pos (step_cached (init ex_sde ex_bm ∅) 0%Z [10; 20]%Z 4%Z w0).2)
    ∧ count_calls is_call_f (calls w')
      = count_calls is_call_f (calls ex_world') + STAGES * (STAGES + 1) / 2
    ∧ count_calls is_call_g (calls w')
      = count_calls is_call_g (calls ex_world') + STAGES * (STAGES + 1) / 2
    ∧ count_calls is_call_f
        (calls (step_cached (init ex_sde ex_bm ∅) 0%Z [10; 20]%Z 4%Z ex_world').2)
      = count_calls is_call_f (calls ex_world') + STAGES
    ∧ count_calls is_call_g
        (calls (step_cached (init ex_sde ex_bm ∅) 0%Z [10; 20]%Z 4%Z ex_world').2)
      = count_calls is_call_g (calls ex_world') + STAGES.
Proof.
  eexists _, _. split.
  { apply step_ok; [reflexivity | intros E; discriminate E]. }
  refine (step_reevaluates (init ex_sde ex_bm ∅) 0%Z [10; 20]%Z 4%Z
            ex_world' _ _ _).
  apply step_ok; [reflexivity | intros E; discriminate E].
Defined.

(** Three stages: six calls of [f] and six of [g] in [step], three of each
    in the variant. *)
Example step_reevaluates_run :
  let w1 := (step (init ex_sde ex_bm ∅) 0%Z [10; 20]%Z 4%Z ex_world).2 in
  let w2 := (step_cached (init ex_sde ex_bm ∅) 0%Z [10; 20]%Z 4%Z ex_world).2 in
  count_calls is_call_f (calls w1) = 6 ∧ count_calls is_call_g (calls w1) = 6
  ∧ count_calls is_call_f (calls w2) = 3 ∧ count_calls is_call_g (calls w2) = 3.
Proof. vm_compute. done. Qed.

Lemma step_block_counts_witness :
  ∃ L w',
    step_locals (init ex_sde_mismatch ex_bm ∅)
      0%Z [10; 20; 30]%Z 4%Z ex_world = (Ok L, w')
    ∧ step (init ex_sde_mismatch ex_bm ∅)
        0%Z [10; 20; 30]%Z 4%Z ex_world = (Ok (0%Z ⊕ 4%Z, y1 L), w')
    ∧ length (I_k L) = Nat.min 2 2
    ∧ length (y1 L)
      = foldl (λ m s,
            Nat.min m (stage_blocks (init ex_sde_mismatch ex_bm ∅) 0%Z 4%Z L s))
          3 (seq 0 3).
Proof.
  refine (step_block_counts
            (init ex_sde_mismatch ex_bm ∅) 0%Z [10; 20; 30]%Z 4%Z ex_world _ _).
  - reflexivity.
  - intros E. discriminate E.
Defined.

(** Three blocks in the state, four from [f], two from [g] and from the
    Brownian path: two blocks come out. *)
Example step_block_counts_run :
  step (init ex_sde_mismatch ex_bm ∅)
    0%Z [10; 20; 30]%Z 4%Z ex_world
  = (Ok (4%Z, [35334; 63412]%Z),
     {| rng_pos := 0;
        calls := [CallBm 4; CallBm 0; CallTrapezoidal 0 [10; 20; 30] 4 2;
                  CallF 0 [10; 20; 30]; CallG 0 [10; 20; 30];
                  CallF 0 [10; 20; 30]; CallG 0 [10; 20; 30];
                  CallF 4 [62; 100]; CallG 8 [100; 180];
                  CallF 0 [10; 20; 30]; CallG 0 [10; 20; 30];
                  CallF 4 [62; 100]; CallG 8 [100; 180];
                  CallF 8 [906; 1620]; CallG 16 [636; 1076]]%Z |}).
Proof. vm_compute. reflexivity. Qed.

(** C10 as stated fails: a state with no block against a Brownian path
    with two: [y0[0]] raises [IndexError], after the two calls to the
    path. *)
Lemma step_block_counts_empty_state :
  step (init ex_sde ex_bm ∅)
    0%Z [] 4%Z ex_world
  = (Raise IndexError,
     {| rng_pos := 0; calls := [CallBm 4%Z; CallBm 0%Z] |}).
Proof. vm_compute. reflexivity. Qed.


(** ** The further properties, applied *)

Lemma step_empty_state_witness :
  step (init ex_sde ex_bm ex_gaussian) 1%Z [] 4%Z ex_world'
  = (Raise IndexError, log [CallBm (1%Z ⊕ 4%Z); CallBm 1%Z] ex_world').
Proof.
  refine (step_empty_state (init ex_sde ex_bm ex_gaussian) 1%Z 4%Z ex_world'
            _ _ _).
  - reflexivity.
  - discriminate.
  - discriminate.
Defined.

Lemma step_call_sequence_witness :
  ∃ L w',
    step_locals (init ex_sde ex_bm ex_gaussian) 1%Z [10; 20]%Z 4%Z ex_world'
    = (Ok L, w')
    ∧ ∃ rest,
        calls w'
        = calls ex_world' ++ [CallBm (1%Z ⊕ 4%Z); CallBm 1%Z]
          ++ (if trapezoidal_approx (init ex_sde ex_bm ex_gaussian)
              then [CallTrapezoidal 1%Z [10; 20]%Z 4%Z (sqrt 4%Z)]
              else replicate (length (I_k L)) CallRandn)
          ++ rest
        ∧ Forall (λ e, is_call_f e || is_call_g e = true) rest.
Proof.
  eexists _, _. split; [run_step|].
  refine (step_call_sequence (init ex_sde ex_bm ex_gaussian) 1%Z [10; 20]%Z
            4%Z ex_world' _ _ _).
  run_step.
Defined.

Lemma init_other_keys_witness :
  trapezoidal_approx (init ex_sde ex_bm (<["rtol" := PyInt 3]> ex_gaussian))
  = trapezoidal_approx (init ex_sde ex_bm ex_gaussian)
  ∧ trapezoidal_approx (init ex_sde ex_bm (delete "rtol" ex_gaussian))
    = trapezoidal_approx (init ex_sde ex_bm ex_gaussian)
  ∧ step (init ex_sde ex_bm (<["rtol" := PyInt 3]> ex_gaussian))
      1%Z [10; 20]%Z 4%Z ex_world
    = step (init ex_sde ex_bm ex_gaussian) 1%Z [10; 20]%Z 4%Z ex_world
  ∧ step (init ex_sde ex_bm (delete "rtol" ex_gaussian))
      1%Z [10; 20]%Z 4%Z ex_world
    = step (init ex_sde ex_bm ex_gaussian) 1%Z [10; 20]%Z 4%Z ex_world.
Proof.
  refine (init_other_keys ex_sde ex_bm ex_gaussian "rtol" (PyInt 3)
            1%Z [10; 20]%Z 4%Z ex_world _).
  discriminate.
Defined.

Lemma step_first_stage_witness :
  ∃ L w',
    step_locals (init ex_sde_mismatch ex_bm ∅) 0%Z [10; 20; 30]%Z 4%Z ex_world
    = (Ok L, w')
    ∧ length (H0 L) = STAGES ∧ length (H1 L) = STAGES
    ∧ (0 < STAGES → nth 0 (H0 L) [] = [10; 20; 30]%Z
                    ∧ nth 0 (H1 L) [] = [10; 20; 30]%Z)
    ∧ (STAGES = 0 → y1 L = [10; 20; 30]%Z).
Proof.
  eexists _, _. split; [run_step|].
  refine (step_first_stage (init ex_sde_mismatch ex_bm ∅) 0%Z [10; 20; 30]%Z
            4%Z ex_world _ _ _).
  run_step.
Defined.

Lemma ex_same_entries : same_entries_read ex_tab ex_tab'.
Proof.
  split; [reflexivity|]. simpl. intros s Hs.
  apply Nat.ltb_lt in Hs as Hs'. rewrite Hs'. split_and!; try reflexivity.
  intros j Hj. apply Nat.ltb_lt in Hj. by rewrite Hj.
Qed.

Lemma step_entries_read_witness :
  step (tab := ex_tab) (init ex_sde ex_bm ex_gaussian) 1%Z [10; 20]%Z 4%Z ex_world
  = step (tab := ex_tab') (init ex_sde ex_bm ex_gaussian) 1%Z [10; 20]%Z 4%Z
      ex_world.
Proof.
  refine (step_entries_read ex_tab ex_tab' (init ex_sde ex_bm ex_gaussian)
            1%Z [10; 20]%Z 4%Z ex_world _).
  apply ex_same_entries.
Defined.
